(** * voice-pause-video: pause-aware export, trim history and waveform envelope

    A shallow embedding of the JavaScript sources (src/exporter.js,
    src/main.js, src/waveform.js and their TypeScript twins) together with
    the properties stated about them.

    JavaScript numbers are embedded as exact rationals ([Q]): time stamps,
    PCM amplitudes and trim fractions are finite values, and the properties
    below concern their order and their decimal rendering, not the rounding
    of binary64 arithmetic.  Array indices and counters are [nat].

    Part I holds the definitions, module by source file; Part II the lemmas
    and theorems. *)

From Stdlib Require Import List Bool Arith ZArith QArith Qround Qabs Lia Lqa.
From Stdlib Require Import Ascii String DecimalString DecimalN.
Import ListNotations.

Local Open Scope Q_scope.

(** * Part I: definitions *)

(** ** JavaScript built-ins used by the sources *)
Module Js.

(** [a > b] on numbers. *)
Definition gt (a b : Q) : bool := negb (Qle_bool a b).

(** [a < b] on numbers. *)
Definition lt (a b : Q) : bool := negb (Qle_bool b a).

(** [Math.max(a, b)]. *)
Definition Math_max (a b : Q) : Q := if lt a b then b else a.

(** [Math.abs(a)]. *)
Definition Math_abs (a : Q) : Q := if lt a 0 then - a else a.

(** Decimal digits of a non-negative integer: ["0"] for zero, no leading
    zero otherwise (template literals, and the integer part in [toFixed]). *)
Definition decimal (n : N) : string := NilZero.string_of_uint (N.to_uint n).

(** The character of one decimal digit. *)
Definition digit (d : Z) : ascii := ascii_of_nat (48 + Z.to_nat d).

(** Three digits, zero padded: the fraction of [toFixed(3)]. *)
Definition frac3 (r : Z) : string :=
  String (digit (r / 100))
    (String (digit ((r / 10) mod 10))
       (String (digit (r mod 10)) EmptyString)).

(** The integer [n] for which [n / 10^3 - x] is as close to zero as
    possible, the larger one when there are two. *)
Definition nearest_milli (x : Q) : Z := Qfloor (x * 1000 + (1 # 2)).

(** The bound above which [toFixed] leaves fixed notation. *)
Definition fixed_limit : Q := 1000000000000000000000.

Section ToFixed.

(** [Number::toString] on values of [10^21] and above (exponent notation);
    it is not part of the sources and stays a parameter. *)
Variable Number_toString : Q -> string.

(** [x.toFixed(3)]: sign, then either the fallback for huge values or the
    digits of the nearest number of thousandths with a point before the last
    three. *)
Definition toFixed3 (x : Q) : string :=
  let s := if lt x 0 then "-"%string else ""%string in
  let x := if lt x 0 then - x else x in
  if Qle_bool fixed_limit x then (s ++ Number_toString x)%string
  else
    let n := nearest_milli x in
    (s ++ decimal (Z.to_N (n / 1000)) ++ "." ++ frac3 (n mod 1000))%string.

End ToFixed.

(** *** Reading a fixed-point rendering back

    The reader accepts exactly: an optional minus sign, one or more decimal
    digits, a point, and three decimal digits. *)

Fixpoint split_dot (s : string) : option (string * string) :=
  match s with
  | EmptyString => None
  | String c r =>
      if Ascii.eqb c "." then Some (EmptyString, r)
      else match split_dot r with
           | Some (a, b) => Some (String c a, b)
           | None => None
           end
  end.

Definition digit_value (c : ascii) : option Z :=
  let n := nat_of_ascii c in
  if (48 <=? n)%nat && (n <=? 57)%nat then Some (Z.of_nat (n - 48)) else None.

Definition read_frac3 (s : string) : option Z :=
  match s with
  | String a (String b (String c EmptyString)) =>
      match digit_value a, digit_value b, digit_value c with
      | Some x, Some y, Some z => Some (100 * x + 10 * y + z)%Z
      | _, _, _ => None
      end
  | _ => None
  end.

Definition read_unsigned3 (body : string) : option Z :=
  match split_dot body with
  | Some (ip, fp) =>
      match NilZero.uint_of_string ip, read_frac3 fp with
      | Some d, Some f => Some (Z.of_N (N.of_uint d) * 1000 + f)%Z
      | _, _ => None
      end
  | None => None
  end.

(** The value of a rendering, in thousandths over 1000. *)
Definition read_fixed3 (s : string) : option Q :=
  match s with
  | String "-" body =>
      match read_unsigned3 body with
      | Some n => Some ((- n)%Z # 1000)
      | None => None
      end
  | _ =>
      match read_unsigned3 s with
      | Some n => Some (n # 1000)
      | None => None
      end
  end.

(** No character is a point. *)
Fixpoint dotless (s : string) : bool :=
  match s with
  | EmptyString => true
  | String c r => negb (Ascii.eqb c ".") && dotless r
  end.

(** The range in which [toFixed] writes fixed notation. *)
Definition in_fixed_range (x : Q) : Prop := - fixed_limit < x /\ x < fixed_limit.

(** [x] to the nearest thousandth, halves away from zero on the negative
    side and up on the other, as [toFixed(3)] prints it. *)
Definition quantize (x : Q) : Q :=
  if lt x 0 then (- nearest_milli (- x))%Z # 1000 else nearest_milli x # 1000.

End Js.

(** ** exporter.js: [Exporter] *)
Module Exporter.

(** A pause descriptor, as pushed by [togglePause]. *)
Record PauseRange := {
  startVideoTime : Q;
  pauseDuration : Q;
  frameDataURL : string
}.

(** One piece of the loop's engine work, before its arguments are rendered:
    - [CopyRange segStart segEnd n]: copy [segStart, segEnd] of input.mp4
      into seg_n.mp4;
    - [Freeze k frame d n]: write the still as still_k.png and loop it for
      [d] seconds into seg_n.mp4;
    - [CopyTail last n]: copy input.mp4 from [last] to its end into
      seg_n.mp4. *)
Inductive Step :=
| CopyRange (segStart segEnd : Q) (out : nat)
| Freeze (stillPng : nat) (frame : string) (duration : Q) (stillMp4 : nat)
| CopyTail (last : Q) (tailOut : nat).

Definition eps : Q := 1 # 1000.

(** The [for (const p of pauses)] loop followed by the tail segment; the
    loop variables [last] and [segIndex] are the arguments. *)
Fixpoint sweep (last : Q) (segIndex : nat) (pauses : list PauseRange)
  : list Step :=
  match pauses with
  | [] => [CopyTail last segIndex]
  | p :: rest =>
      let segStart := last in
      let segEnd := startVideoTime p in
      if Js.gt segEnd (segStart + eps) then
        CopyRange segStart segEnd segIndex
          :: Freeze (S segIndex) (frameDataURL p) (pauseDuration p) (S segIndex)
          :: sweep segEnd (S (S segIndex)) rest
      else
        Freeze segIndex (frameDataURL p) (pauseDuration p) segIndex
          :: sweep segEnd (S segIndex) rest
  end.

(** [let last = 0; let segIndex = 0;] *)
Definition plan (pauses : list PauseRange) : list Step := sweep 0 0 pauses.

(** *** Engine operations *)

(** What a file written into the engine's storage holds. *)
Inductive Payload :=
| VideoBlob
| AudioBlob
| Fetched (url : string)
| Text (content : string).

(** Calls on the ffmpeg instance. *)
Inductive EngineOp :=
| Load
| WriteFile (name : string) (data : Payload)
| Run (args : list string)
| ReadFile (name : string).

Definition seg_name (n : nat) : string :=
  ("seg_" ++ Js.decimal (N.of_nat n) ++ ".mp4")%string.

Definition still_name (n : nat) : string :=
  ("still_" ++ Js.decimal (N.of_nat n) ++ ".png")%string.

Definition out_name (s : Step) : string :=
  match s with
  | CopyRange _ _ n => seg_name n
  | Freeze _ _ _ n => seg_name n
  | CopyTail _ n => seg_name n
  end.

Section Engine.

Variable Number_toString : Q -> string.

(** [const fmtTime = (t) => t.toFixed(3);] *)
Definition fmtTime (t : Q) : string := Js.toFixed3 Number_toString t.

(** The engine calls of one step, with the arguments as passed. *)
Definition run_step (s : Step) : list EngineOp :=
  match s with
  | CopyRange segStart segEnd n =>
      [Run ["-i"; "input.mp4"; "-ss"; fmtTime segStart; "-to"; fmtTime segEnd;
            "-c"; "copy"; seg_name n]%string]
  | Freeze k frame d n =>
      [WriteFile (still_name k) (Fetched frame);
       Run ["-loop"; "1"; "-i"; still_name k; "-t"; fmtTime d; "-vf";
            "format=yuv420p,scale=trunc(iw/2)*2:trunc(ih/2)*2"; "-r"; "30";
            "-pix_fmt"; "yuv420p"; seg_name n]%string]
  | CopyTail last n =>
      [Run ["-i"; "input.mp4"; "-ss"; fmtTime last; "-c"; "copy"; seg_name n]%string]
  end.

(** [concatList.push(`file '${out}'`)] for each produced clip, joined by
    newlines. *)
Definition concat_line (s : Step) : string :=
  ("file '" ++ out_name s ++ "'")%string.

Definition newline : string := String (ascii_of_nat 10) EmptyString.

Definition concatTxt (steps : list Step) : string :=
  String.concat newline (map concat_line steps).

(** [ensureFFmpeg]: nothing when the instance exists; an error when the
    library never appeared; otherwise create and load. *)
Definition ensureFFmpeg (ffmpeg libraryLoaded : bool)
  : option (list EngineOp) :=
  if ffmpeg then Some []
  else if libraryLoaded then Some [Load] else None.

(** [export({videoBlob, audioBlob, pauses, normalize})]: the engine calls in
    order, or [None] when the engine cannot be acquired. *)
Definition export (ffmpeg libraryLoaded : bool)
    (pauses : list PauseRange) (normalize : bool) : option (list EngineOp) :=
  match ensureFFmpeg ffmpeg libraryLoaded with
  | None => None
  | Some acquire =>
      let steps := plan pauses in
      let audioOut :=
        if normalize then ["-af"; "loudnorm=I=-16:TP=-1.5:LRA=11"]%string else [] in
      Some (acquire
            ++ [WriteFile "input.mp4" VideoBlob; WriteFile "voice.m4a" AudioBlob]
            ++ flat_map run_step steps
            ++ [WriteFile "list.txt" (Text (concatTxt steps));
                Run ["-f"; "concat"; "-safe"; "0"; "-i"; "list.txt"; "-c"; "copy";
                     "video_full.mp4"]%string;
                Run (["-i"; "voice.m4a"]%string ++ audioOut
                     ++ ["-c:a"; "aac"; "-b:a"; "192k"; "voice.aac"]%string);
                Run ["-i"; "video_full.mp4"; "-i"; "voice.aac"; "-map"; "0:v:0";
                     "-map"; "1:a:0"; "-c:v"; "copy"; "-shortest"; "output.mp4"]%string;
                ReadFile "output.mp4"])
  end.

End Engine.

(** *** Reading the engine calls *)

Definition is_time_flag (arg : string) : bool :=
  (String.eqb arg "-ss" || String.eqb arg "-to" || String.eqb arg "-t")%bool.

(** The values that follow [-ss], [-to] and [-t] in an argument list. *)
Fixpoint time_args (args : list string) : list string :=
  match args with
  | [] => []
  | flag :: rest =>
      match rest with
      | [] => []
      | v :: rest' =>
          if is_time_flag flag then v :: time_args rest' else time_args rest
      end
  end.

Definition op_times (op : EngineOp) : list string :=
  match op with
  | Run args => time_args args
  | _ => []
  end.

(** The time values of a step, in the order its call passes them. *)
Definition step_times (s : Step) : list Q :=
  match s with
  | CopyRange segStart segEnd _ => [segStart; segEnd]
  | Freeze _ _ d _ => [d]
  | CopyTail last _ => [last]
  end.

(** A pause whose two time values [toFixed] writes in fixed notation. *)
Definition renderable (p : PauseRange) : Prop :=
  Js.in_fixed_range (startVideoTime p) /\ Js.in_fixed_range (pauseDuration p).

(** The specification's first scenario: pauses at 12.0 s for 3.3 s and at
    47.1 s for 0.9 s. *)
Definition two_pauses : list PauseRange :=
  [{| startVideoTime := 12; pauseDuration := 3.3; frameDataURL := "frame-a" |};
   {| startVideoTime := 47.1; pauseDuration := 0.9; frameDataURL := "frame-b" |}].

(** *** Reading a plan *)

(** Source ranges of the copied (real) segments, in plan order; the tail
    copy has no [-to] and runs to the end of the video, [totalDuration]. *)
Fixpoint real_ranges (totalDuration : Q) (steps : list Step) : list (Q * Q) :=
  match steps with
  | [] => []
  | CopyRange a b _ :: r => (a, b) :: real_ranges totalDuration r
  | Freeze _ _ _ _ :: r => real_ranges totalDuration r
  | CopyTail a _ :: r => (a, totalDuration) :: real_ranges totalDuration r
  end.

(** Still frame and duration of the freeze segments, in plan order. *)
Fixpoint freezes (steps : list Step) : list (string * Q) :=
  match steps with
  | [] => []
  | Freeze _ f d _ :: r => (f, d) :: freezes r
  | _ :: r => freezes r
  end.

(** [t] lies in the half-open range [[a, b)]. *)
Definition covers (t : Q) (r : Q * Q) : bool :=
  Qle_bool (fst r) t && Js.lt t (snd r).

(** How many of the ranges contain [t]. *)
Definition cover_count (t : Q) (rs : list (Q * Q)) : nat :=
  List.length (filter (covers t) rs).

(** The candidate ranges the loop skipped because the guard
    [segEnd > segStart + 0.001] was false. *)
Fixpoint elided (last : Q) (pauses : list PauseRange) : list (Q * Q) :=
  match pauses with
  | [] => []
  | p :: rest =>
      if Js.gt (startVideoTime p) (last + eps)
      then elided (startVideoTime p) rest
      else (last, startVideoTime p) :: elided (startVideoTime p) rest
  end.

(** Ledger ordering: start times do not decrease, beginning at [c]. *)
Fixpoint ordered (c : Q) (pauses : list PauseRange) : Prop :=
  match pauses with
  | [] => True
  | p :: rest => c <= startVideoTime p /\ ordered (startVideoTime p) rest
  end.

(** Ranges in increasing order from [c]: each starts at or after the end
    of the one before and does not end before it starts. *)
Fixpoint ascending (c : Q) (rs : list (Q * Q)) : Prop :=
  match rs with
  | [] => True
  | (a, b) :: r => c <= a /\ a <= b /\ ascending b r
  end.

(** The value of [last] when the loop ends. *)
Fixpoint final_cursor (c : Q) (pauses : list PauseRange) : Q :=
  match pauses with
  | [] => c
  | p :: rest => final_cursor (startVideoTime p) rest
  end.

End Exporter.

(** ** exporter.js: the engine's [logger] callback *)
Module Logger.

(** [\s] on the code units a [string] can hold: tab, line feed, vertical
    tab, form feed, carriage return, space and no-break space. *)
Definition is_space (c : ascii) : bool :=
  let n := nat_of_ascii c in
  ((9 <=? n) && (n <=? 13) || (n =? 32) || (n =? 160))%nat.

(** [\d] *)
Definition is_digit (c : ascii) : bool :=
  let n := nat_of_ascii c in ((48 <=? n) && (n <=? 57))%nat.

Definition is_percent (c : ascii) : bool := Ascii.eqb c "%".

(** [(\d{1,n})%] at the head of [s]: the captured digits.  The digits
    are taken greedily; giving one back never helps, as the character that
    would have to be [%] is then a digit. *)
Fixpoint digits_percent (n : nat) (s : string) : option string :=
  match n, s with
  | S n', String c (String d r) =>
      if is_digit c then
        if is_percent d then Some (String c EmptyString)
        else match digits_percent n' (String d r) with
             | Some ds => Some (String c ds)
             | None => None
             end
      else None
  | _, _ => None
  end.

(** [/\s(\d{1,3})%/] at the head of [s]. *)
Definition match_here (s : string) : option string :=
  match s with
  | String w r => if is_space w then digits_percent 3 r else None
  | EmptyString => None
  end.

(** [m.match(/\s(\d{1,3})%/)]: the capture of the leftmost match. *)
Fixpoint regex_match (m : string) : option string :=
  match m with
  | EmptyString => None
  | String _ r =>
      match match_here m with
      | Some ds => Some ds
      | None => regex_match r
      end
  end.

(** [Number(ds)] on a string of decimal digits. *)
Fixpoint Number_acc (acc : nat) (ds : string) : nat :=
  match ds with
  | EmptyString => acc
  | String c r => Number_acc (10 * acc + (nat_of_ascii c - 48)) r
  end.

Definition Number (ds : string) : nat := Number_acc 0 ds.

(** The logger: the calls of [onProgress] it makes for one message
    ([None] stands for a missing or empty [message]). *)
Definition logger (message : option string) : list nat :=
  let m := match message with Some s => s | None => EmptyString end in
  match regex_match m with
  | Some ds => [Number ds]
  | None => []
  end.



(** The text the logger looks at: [String(message || '')]. *)
Definition text (message : option string) : string :=
  match message with Some s => s | None => EmptyString end.

End Logger.

(** ** waveform.js: [Waveform.drawFromPCM] *)
Module Waveform.

(** [const step = Math.max(1, Math.floor(float32.length / width));] *)
Definition step_of (len width : nat) : nat := Nat.max 1 (len / width).

(** The inner loop
    [for (let i = 0; i < step && start + i < float32.length; i++)],
    with [n] the iterations left before [i] reaches [step]. *)
Fixpoint scan (float32 : list Q) (start i n : nat) (mn mx : Q) : Q * Q :=
  match n with
  | O => (mn, mx)
  | S n' =>
      if (start + i <? List.length float32)%nat then
        let v := nth (start + i) float32 0 in
        let mn := if Js.lt v mn then v else mn in
        let mx := if Js.gt v mx then v else mx in
        scan float32 start (S i) n' mn mx
      else (mn, mx)
  end.

(** One pass of the outer loop: [let min = 1, max = -1] and the scan of
    column [x]. *)
Definition column (float32 : list Q) (width x : nat) : Q * Q :=
  let step := step_of (List.length float32) width in
  scan float32 (x * step) 0 step 1 (-1).

(** The (min, max) pair of every column [x = 0 .. width - 1]. *)
Definition columns (float32 : list Q) (width : nat) : list (Q * Q) :=
  map (column float32 width) (seq 0 width).

Inductive CanvasOp :=
| Clear
| BeginPath
| MoveTo (x y : Q)
| LineTo (x y : Q)
| Stroke.

(** [drawFromPCM(float32)] on a canvas of the given size. *)
Definition drawFromPCM (float32 : list Q) (width : nat) (height : Q)
  : list CanvasOp :=
  Clear :: BeginPath ::
  flat_map (fun x =>
              let '(mn, mx) := column float32 width x in
              let y1 := (1 - (mn * 0.9 + 1) / 2) * height in
              let y2 := (1 - (mx * 0.9 + 1) / 2) * height in
              let cx := inject_Z (Z.of_nat x) + 0.5 in
              [MoveTo cx y1; LineTo cx y2])
           (seq 0 width)
  ++ [Stroke].

(** One iteration of the inner loop on the running pair. *)
Definition widen (acc : Q * Q) (v : Q) : Q * Q :=
  (if Js.lt v (fst acc) then v else fst acc,
   if Js.gt v (snd acc) then v else snd acc).

(** The samples column [x] scans: [step] of them from [x * step], as far
    as the buffer reaches. *)
Definition window (float32 : list Q) (width x : nat) : list Q :=
  let step := step_of (List.length float32) width in
  firstn step (skipn (x * step) float32).

End Waveform.

(** ** main.js: trim editor, pause bookkeeping and [doExport] *)
Module Main.

Record TrimRange := { start : Q; end_ : Q }.

Record HistoryItem := { from : TrimRange; to : TrimRange }.

(** [trimRange], [undoStack] and [redoStack]; the stacks are arrays used
    only through [push] and [pop], kept here with the top first. *)
Record Editor := {
  trimRange : TrimRange;
  undoStack : list HistoryItem;
  redoStack : list HistoryItem
}.

(** [let trimRange = { start: 0, end: 1 }] and two empty stacks. *)
Definition initial (r : TrimRange) : Editor :=
  {| trimRange := r; undoStack := []; redoStack := [] |}.

Definition threshold : Q := 0.02.

(** [Math.abs(v) < threshold] *)
Definition quiet (v : Q) : bool := Js.lt (Js.Math_abs v) threshold.

(** [while (i < audioPCM.length && Math.abs(audioPCM[i]) < threshold) i++;]
    from [i = 0]: the number of leading quiet samples. *)
Fixpoint leading (pcm : list Q) : nat :=
  match pcm with
  | [] => 0
  | v :: r => if quiet v then S (leading r) else 0
  end.

(** [while (j > 0 && Math.abs(audioPCM[j]) < threshold) j--;] *)
Fixpoint trailing (pcm : list Q) (j : nat) : nat :=
  match j with
  | O => O
  | S j' => if quiet (nth j pcm 0) then trailing pcm j' else j
  end.

Definition of_nat (n : nat) : Q := inject_Z (Z.of_nat n).

(** The range the trim-silence handler computes from a buffer with at
    least one sample (a decoded recording). *)
Definition silenceRange (audioPCM : list Q) : TrimRange :=
  let len := List.length audioPCM in
  let i := leading audioPCM in
  let j := trailing audioPCM (len - 1) in
  {| start := of_nat i / of_nat len; end_ := of_nat (j + 1) / of_nat len |}.

(** The state update of the trim handler: push [{from: prev, to:
    trimRange}], install the new range, empty the redo stack. *)
Definition applyTrim (newRange : TrimRange) (ed : Editor) : Editor :=
  let prev := trimRange ed in
  {| trimRange := newRange;
     undoStack := {| from := prev; to := newRange |} :: undoStack ed;
     redoStack := [] |}.

(** The click handler of [trimSilenceBtn]. *)
Definition trimSilence (audioPCM : option (list Q)) (ed : Editor) : Editor :=
  match audioPCM with
  | None => ed
  | Some pcm => applyTrim (silenceRange pcm) ed
  end.

(** The click handler of [undoBtn]. *)
Definition undo (ed : Editor) : Editor :=
  match undoStack ed with
  | [] => ed
  | item :: rest =>
      {| trimRange := from item;
         undoStack := rest;
         redoStack := item :: redoStack ed |}
  end.

(** The click handler of [redoBtn]. *)
Definition redo (ed : Editor) : Editor :=
  match redoStack ed with
  | [] => ed
  | item :: rest =>
      {| trimRange := to item;
         undoStack := item :: undoStack ed;
         redoStack := rest |}
  end.

Inductive EditorOp :=
| ApplyTrim (newRange : TrimRange)
| TrimSilence (audioPCM : option (list Q))
| Undo
| Redo.

Definition edit (ed : Editor) (op : EditorOp) : Editor :=
  match op with
  | ApplyTrim r => applyTrim r ed
  | TrimSilence pcm => trimSilence pcm ed
  | Undo => undo ed
  | Redo => redo ed
  end.

Definition edits (ops : list EditorOp) (ed : Editor) : Editor :=
  fold_left edit ops ed.

(** [0 <= start <= end <= 1] *)
Definition range_ok (r : TrimRange) : Prop :=
  0 <= start r /\ start r <= end_ r /\ end_ r <= 1.

(** Undo and redo only move ranges between the stacks and the current
    range: ranges that are in order stay in order. *)
Definition items_ok (ed : Editor) : Prop :=
  range_ok (trimRange ed)
  /\ Forall (fun it => range_ok (from it) /\ range_ok (to it)) (undoStack ed)
  /\ Forall (fun it => range_ok (from it) /\ range_ok (to it)) (redoStack ed).

(** *** Pause bookkeeping *)

(** The recording session as [togglePause] and the video listeners see it:
    [window._vpv_lastPause] and [window._vpv_pauseStartAt] are [None] while
    undefined. *)
Record Session := {
  isRecording : bool;
  paused : bool;
  currentTime : Q;
  lastPause : option (Q * string);
  pauseStartAt : option Q;
  pauses : list Exporter.PauseRange
}.

(** The truth value of [prev] in [prev ? ... : 0.01]. *)
Definition truthy (prev : option Q) : bool :=
  match prev with
  | Some v => negb (Qeq_bool v 0)
  | None => false
  end.

(** [togglePause()], at clock reading [now] with [frame] the data URL of
    the current frame. *)
Definition togglePause (now : Q) (frame : string) (s : Session) : Session :=
  if negb (isRecording s) then s
  else if negb (paused s) then
    {| isRecording := isRecording s;
       paused := true;
       currentTime := currentTime s;
       lastPause := Some (currentTime s, frame);
       pauseStartAt := pauseStartAt s;
       pauses := pauses s |}
  else
    {| isRecording := isRecording s;
       paused := false;
       currentTime := currentTime s;
       lastPause := lastPause s;
       pauseStartAt := pauseStartAt s;
       pauses :=
         match lastPause s with
         | Some lp =>
             let prev := pauseStartAt s in
             let dur :=
               if truthy prev
               then (now - match prev with Some v => v | None => 0 end) / 1000
               else 0.01 in
             pauses s ++
               [{| Exporter.startVideoTime := fst lp;
                   Exporter.pauseDuration := Js.Math_max 0.01 dur;
                   Exporter.frameDataURL := snd lp |}]
         | None => pauses s
         end |}.

(** What happens to a session: the pause toggle, the video element's
    ['pause'] and ['play'] listeners, recording start and stop, playback
    moving [currentTime], and the element pausing or resuming by other means
    (its controls, the end of the media). *)
Inductive Event :=
| TogglePause (now : Q) (frame : string)
| OnPause (now : Q)
| OnPlay
| StartRecording
| StopRecording
| Playback (t : Q)
| SetPaused (b : bool).

Definition handle (s : Session) (e : Event) : Session :=
  match e with
  | TogglePause now frame => togglePause now frame s
  | OnPause now =>
      if isRecording s then
        {| isRecording := isRecording s; paused := paused s;
           currentTime := currentTime s; lastPause := lastPause s;
           pauseStartAt := Some now; pauses := pauses s |}
      else s
  | OnPlay =>
      {| isRecording := isRecording s; paused := paused s;
         currentTime := currentTime s; lastPause := lastPause s;
         pauseStartAt := Some 0; pauses := pauses s |}
  | StartRecording =>
      if isRecording s then s
      else
        {| isRecording := true; paused := false;
           currentTime := currentTime s; lastPause := lastPause s;
           pauseStartAt := pauseStartAt s; pauses := pauses s |}
  | StopRecording =>
      if isRecording s then
        {| isRecording := false; paused := paused s;
           currentTime := currentTime s; lastPause := lastPause s;
           pauseStartAt := pauseStartAt s; pauses := pauses s |}
      else s
  | Playback t =>
      {| isRecording := isRecording s; paused := paused s;
         currentTime := t; lastPause := lastPause s;
         pauseStartAt := pauseStartAt s; pauses := pauses s |}
  | SetPaused b =>
      {| isRecording := isRecording s; paused := b;
         currentTime := currentTime s; lastPause := lastPause s;
         pauseStartAt := pauseStartAt s; pauses := pauses s |}
  end.

Definition session (events : list Event) (s : Session) : Session :=
  fold_left handle events s.

(** The page as loaded: nothing recorded, the two window fields undefined. *)
Definition fresh : Session :=
  {| isRecording := false; paused := true; currentTime := 0;
     lastPause := None; pauseStartAt := None; pauses := [] |}.

(** A pause event at or above the minimum duration. *)
Definition floored (p : Exporter.PauseRange) : Prop :=
  0.01 <= Exporter.pauseDuration p.

(** *** [doExport] *)

Inductive Message :=
| NoNarrationRecorded
| ExportFailed.

(** What [doExport] does, in order. *)
Inductive Effect :=
| Alert (m : Message)
| SetProgress (p : Q)
| RenderTrimmed (first last : Z)
| Engine (op : Exporter.EngineOp)
| Download (name : string)
| ConsoleError
| HideProgressLater.

(** The globals [doExport] reads; [audioBlob] is [true] once a recording
    has finished. *)
Record Page := {
  audioBlob : bool;
  audioPCM : option (list Q);
  pageTrim : TrimRange;
  pagePauses : list Exporter.PauseRange;
  normalize : bool;
  libraryLoaded : bool
}.

Section DoExport.

Variable Number_toString : Q -> string.

Definition doExport (pg : Page) : list Effect :=
  if negb (audioBlob pg) then [Alert NoNarrationRecorded]
  else
    SetProgress 1 ::
    (match audioPCM pg with
     | Some pcm =>
         let len := of_nat (List.length pcm) in
         [RenderTrimmed (Qfloor (start (pageTrim pg) * len))
                        (Qfloor (end_ (pageTrim pg) * len))]
     | None => []
     end)
    ++ (match Exporter.export Number_toString false (libraryLoaded pg)
                (pagePauses pg) (normalize pg) with
        | Some ops =>
            map Engine ops
            ++ [SetProgress 100; Download "voice-pause-video.mp4"]
        | None => [ConsoleError; Alert ExportFailed]
        end)
    ++ [HideProgressLater].

End DoExport.

End Main.

(** ** The components as the specification words them *)
Module Spec.

(** The buffer of ten samples used to compare the two samplers. *)
Definition ten_samples : list Q := [0; 0; 0.5; 0; 0; 0; 0; 0; 0; -0.5].

(** *** Waveform sampler: [targetWidth] windows of [ceil(len / targetWidth)]
    samples, the minimum and maximum of each; an empty window gives (0, 0). *)

Definition window_size (len targetWidth : nat) : nat :=
  (len + targetWidth - 1) / targetWidth.

Definition extent (w : list Q) : Q * Q :=
  match w with
  | [] => (0, 0)
  | v :: r =>
      fold_left (fun '(mn, mx) u =>
                   (if Js.lt u mn then u else mn, if Js.gt u mx then u else mx))
                r (v, v)
  end.

Definition sample (pcm : list Q) (targetWidth : nat) : list (Q * Q) :=
  let size := window_size (List.length pcm) targetWidth in
  map (fun x => extent (firstn size (skipn (x * size) pcm))) (seq 0 targetWidth).

(** *** Trim history as a line: the ranges applied so far and a position
    in them; the current range is the replay of the prefix up to there. *)

Record Line := {
  origin : Main.TrimRange;
  applied : list Main.TrimRange;
  position : nat
}.

(** Replaying trims one after the other leaves the last one in force. *)
Definition replay (r0 : Main.TrimRange) (trims : list Main.TrimRange)
  : Main.TrimRange :=
  fold_left (fun _ r => r) trims r0.

Definition current (l : Line) : Main.TrimRange :=
  replay (origin l) (firstn (position l) (applied l)).

Definition line_apply (r : Main.TrimRange) (l : Line) : Line :=
  {| origin := origin l;
     applied := firstn (position l) (applied l) ++ [r];
     position := S (position l) |}.

Definition line_undo (l : Line) : Line :=
  {| origin := origin l; applied := applied l;
     position := Nat.pred (position l) |}.

Definition line_redo (l : Line) : Line :=
  {| origin := origin l; applied := applied l;
     position := if (position l <? List.length (applied l))%nat
                 then S (position l) else position l |}.

Definition line_edit (l : Line) (op : Main.EditorOp) : Line :=
  match op with
  | Main.ApplyTrim r => line_apply r l
  | Main.TrimSilence None => l
  | Main.TrimSilence (Some pcm) => line_apply (Main.silenceRange pcm) l
  | Main.Undo => line_undo l
  | Main.Redo => line_redo l
  end.

Definition line_edits (ops : list Main.EditorOp) (l : Line) : Line :=
  fold_left line_edit ops l.

Definition line_start (r0 : Main.TrimRange) : Line :=
  {| origin := r0; applied := []; position := 0 |}.

(** The history items along a line: each trim leads from the range before
    it to its own. *)
Fixpoint steps (r0 : Main.TrimRange) (trims : list Main.TrimRange)
  : list Main.HistoryItem :=
  match trims with
  | [] => []
  | r :: rest => {| Main.from := r0; Main.to := r |} :: steps r rest
  end.

(** An editor and a line tell the same story: the undo stack holds the
    steps before the position (latest on top), the redo stack the steps
    after it (next on top), and the current ranges are equal. *)
Definition agrees (ed : Main.Editor) (l : Line) : Prop :=
  (position l <= List.length (applied l))%nat
  /\ Main.undoStack ed = rev (firstn (position l) (steps (origin l) (applied l)))
  /\ Main.redoStack ed = skipn (position l) (steps (origin l) (applied l))
  /\ Main.trimRange ed = current l.

End Spec.

(** ** Further readings of the editor, the session and the plan *)
Module History.

(** Undo items link downwards from the current range: each leads to the
    range in force above it. *)
Fixpoint chain_down (cur : Main.TrimRange) (us : list Main.HistoryItem) : Prop :=
  match us with
  | [] => True
  | it :: r => Main.to it = cur /\ chain_down (Main.from it) r
  end.

(** Redo items link upwards from the current range. *)
Fixpoint chain_up (cur : Main.TrimRange) (rs : list Main.HistoryItem) : Prop :=
  match rs with
  | [] => True
  | it :: r => Main.from it = cur /\ chain_up (Main.to it) r
  end.

Definition linked (ed : Main.Editor) : Prop :=
  chain_down (Main.trimRange ed) (Main.undoStack ed)
  /\ chain_up (Main.trimRange ed) (Main.redoStack ed).

(** [k] clicks on undo, [k] clicks on redo. *)
Fixpoint undos (k : nat) (ed : Main.Editor) : Main.Editor :=
  match k with
  | O => ed
  | S k' => undos k' (Main.undo ed)
  end.

Fixpoint redos (k : nat) (ed : Main.Editor) : Main.Editor :=
  match k with
  | O => ed
  | S k' => redos k' (Main.redo ed)
  end.

(** The history as one line: the undo stack bottom to top, then the redo
    stack top to bottom. *)
Definition timeline (ed : Main.Editor) : list Main.HistoryItem :=
  rev (Main.undoStack ed) ++ Main.redoStack ed.

(** A run of clicks on the two arrow buttons: [true] is undo, [false] is
    redo. *)
Definition moves (clicks : list bool) : list Main.EditorOp :=
  map (fun undo_ : bool => if undo_ then Main.Undo else Main.Redo) clicks.

End History.

Module Ledger.

(** Playback that never seeks backwards: the [currentTime] readings do not
    decrease from [t] on. *)
Fixpoint steady (t : Q) (events : list Main.Event) : Prop :=
  match events with
  | [] => True
  | Main.Playback t' :: r => t <= t' /\ steady t' r
  | _ :: r => steady t r
  end.

(** The video time held in [window._vpv_lastPause], 0 while undefined. *)
Definition lastPauseTime (s : Main.Session) : Q :=
  match Main.lastPause s with
  | Some lp => fst lp
  | None => 0
  end.

(** Start times in order, the last at or before the recorded pause point,
    which is at or before the playback position. *)
Definition in_step (s : Main.Session) : Prop :=
  Exporter.ordered 0 (Main.pauses s)
  /\ Exporter.final_cursor 0 (Main.pauses s) <= lastPauseTime s
  /\ lastPauseTime s <= Main.currentTime s.

(** A session with three pauses and no seek. *)
Definition three_pauses : list Main.Event :=
  [Main.StartRecording; Main.Playback 4; Main.TogglePause 1000 "a";
   Main.OnPause 1001; Main.TogglePause 2500 "b"; Main.OnPlay;
   Main.Playback 9; Main.TogglePause 7000 "c"; Main.OnPause 7002;
   Main.TogglePause 7003 "d"; Main.OnPlay; Main.Playback 9;
   Main.TogglePause 8000 "e"; Main.TogglePause 9000 "f"].

End Ledger.

(** ** The engine calls as ffmpeg reads them *)
Module Cli.

(** An argument that starts with a dash is an option. *)
Definition is_option (a : string) : bool :=
  match a with
  | String c _ => Ascii.eqb c "-"
  | EmptyString => false
  end.

(** The one option of these calls that takes no value. *)
Definition is_switch (a : string) : bool := String.eqb a "-shortest".

(** The files a call reads: the values of its [-i] options. *)
Fixpoint inputs (args : list string) : list string :=
  match args with
  | [] => []
  | a :: rest =>
      if is_option a then
        if is_switch a then inputs rest
        else match rest with
             | [] => []
             | v :: rest' =>
                 if String.eqb a "-i" then v :: inputs rest' else inputs rest'
             end
      else inputs rest
  end.

(** The files a call writes: its arguments that are neither an option nor
    an option's value. *)
Fixpoint outputs (args : list string) : list string :=
  match args with
  | [] => []
  | a :: rest =>
      if is_option a then
        if is_switch a then outputs rest
        else match rest with
             | [] => []
             | _ :: rest' => outputs rest'
             end
      else a :: outputs rest
  end.

(** [name] is among the files present. *)
Definition present (name : string) (files : list string) : bool :=
  existsb (String.eqb name) files.

(** Running the calls against the engine's storage, which starts with
    [files]: a write or a call's output adds a file, a call or a read needs
    its inputs present.  [None] when something is read before it exists. *)
Fixpoint stage (files : list string) (ops : list Exporter.EngineOp)
  : option (list string) :=
  match ops with
  | [] => Some files
  | Exporter.Load :: r => stage files r
  | Exporter.WriteFile name _ :: r => stage (name :: files) r
  | Exporter.Run args :: r =>
      if forallb (fun i => present i files) (inputs args)
      then stage (outputs args ++ files) r
      else None
  | Exporter.ReadFile name :: r =>
      if present name files then stage files r else None
  end.

(** The files the calls produce, in call order. *)
Definition produced (ops : list Exporter.EngineOp) : list string :=
  flat_map (fun op => match op with
                      | Exporter.Run args => outputs args
                      | _ => []
                      end) ops.

(** The index in a step's output name. *)
Definition out_index (s : Exporter.Step) : nat :=
  match s with
  | Exporter.CopyRange _ _ n => n
  | Exporter.Freeze _ _ _ n => n
  | Exporter.CopyTail _ n => n
  end.

(** A copied segment whose ends are more than 0.001 s apart and still at
    least a thousandth apart once rendered. *)
Definition well_separated (s : Exporter.Step) : Prop :=
  match s with
  | Exporter.CopyRange a b _ =>
      a + Exporter.eps < b /\ Js.quantize a + (1 # 1000) <= Js.quantize b
  | _ => True
  end.

End Cli.

(** ** Reading what [drawFromPCM] draws *)
Module Canvas.

(** A drawing call that stays inside the band the renderer uses: the
    middle of one of the [width] columns, between 5% and 95% of the height. *)
Definition in_band (width : nat) (height : Q) (op : Waveform.CanvasOp) : Prop :=
  match op with
  | Waveform.MoveTo x y | Waveform.LineTo x y =>
      0 < x /\ x < Main.of_nat width
      /\ 0.05 * height <= y /\ y <= 0.95 * height
  | _ => True
  end.

(** An amplitude within the nominal range. *)
Definition nominal (v : Q) : Prop := -1 <= v /\ v <= 1.

End Canvas.

(** ** Sample buffers *)
Module Samples.

(** Five samples, audible from the second to the third. *)
Definition heard : list Q := [0; 0.5; 0.3; 0; 0].

(** Three samples, all below the 0.02 threshold. *)
Definition hushed : list Q := [0; 0.01; 0].

End Samples.

(** ** main.js: [bufferToWav] *)
Module Wav.

(** [Math.min(a, b)]. *)
Definition Math_min (a b : Q) : Q := if Js.lt b a then b else a.

(** An [AudioBuffer]: its sample rate, its length in frames and the data
    of each channel ([numberOfChannels] is the number of channels held). *)
Record AudioBuffer := {
  sampleRate : Z;
  frames : nat;
  channelData : list (list Q)
}.

Definition numberOfChannels (b : AudioBuffer) : nat :=
  List.length (channelData b).

(** Every channel holds [frames] samples, as an [AudioBuffer] does. *)
Definition well_formed (b : AudioBuffer) : Prop :=
  Forall (fun ch => List.length ch = frames b) (channelData b).

(** Bytes are numbers from 0 to 255.  [view.setUint8] per character. *)
Definition writeUTFBytes (text : string) : list Z :=
  map (fun c => Z.of_nat (nat_of_ascii c)) (list_ascii_of_string text).

(** [view.setUint32(offset, v, true)]: [v] modulo 2^32, low byte first. *)
Definition setUint32 (v : Z) : list Z :=
  let u := (v mod 4294967296)%Z in
  [u mod 256; (u / 256) mod 256; (u / 65536) mod 256; (u / 16777216) mod 256]%Z.

(** [view.setUint16(offset, v, true)]: [v] modulo 2^16, low byte first. *)
Definition setUint16 (v : Z) : list Z :=
  let u := (v mod 65536)%Z in [u mod 256; (u / 256) mod 256]%Z.

(** The integer part of a number, towards zero. *)
Definition truncate (x : Q) : Z :=
  if Js.lt x 0 then (- Qfloor (- x))%Z else Qfloor x.

(** [view.setInt16(offset, x, true)]: the integer part modulo 2^16 in two's
    complement, low byte first. *)
Definition setInt16 (x : Q) : list Z := setUint16 (truncate x).

(** [Math.max(-1, Math.min(1, x))] *)
Definition clamp (x : Q) : Q := Js.Math_max (-1) (Math_min 1 x).

(** [s < 0 ? s * 0x8000 : s * 0x7FFF] *)
Definition scale (s : Q) : Q := if Js.lt s 0 then s * 32768 else s * 32767.

(** The two nested loops that fill [interleaved]: frame by frame, channel
    by channel. *)
Definition interleaved (b : AudioBuffer) : list Q :=
  flat_map (fun i => map (fun ch => nth i (nth ch (channelData b) []) 0)
                         (seq 0 (numberOfChannels b)))
           (seq 0 (frames b)).

(** [const length = buffer.length * numOfChan * 2 + 44] *)
Definition wav_length (b : AudioBuffer) : Z :=
  (Z.of_nat (frames b) * Z.of_nat (numberOfChannels b) * 2 + 44)%Z.

(** The 44 header bytes in the order written; [offset] is 40 when the data
    size [length - offset - 4] is computed. *)
Definition header (b : AudioBuffer) : list Z :=
  let numOfChan := Z.of_nat (numberOfChannels b) in
  let length := wav_length b in
  writeUTFBytes "RIFF" ++ setUint32 (length - 8)
  ++ writeUTFBytes "WAVE" ++ writeUTFBytes "fmt "
  ++ setUint32 16 ++ setUint16 1 ++ setUint16 numOfChan
  ++ setUint32 (sampleRate b)
  ++ setUint32 (sampleRate b * 2 * numOfChan)
  ++ setUint16 (numOfChan * 2) ++ setUint16 16
  ++ writeUTFBytes "data" ++ setUint32 (length - 40 - 4).

(** [bufferToWav(buffer)]: the bytes of the result, in order. *)
Definition bufferToWav (b : AudioBuffer) : list Z :=
  header b ++ flat_map (fun x => setInt16 (scale (clamp x))) (interleaved b).

(** *** Reading the bytes back *)

Definition u16 (lo hi : Z) : Z := (lo + 256 * hi)%Z.

Definition u32 (b0 b1 b2 b3 : Z) : Z :=
  (b0 + 256 * b1 + 65536 * b2 + 16777216 * b3)%Z.

(** A little-endian pair as a signed 16-bit number. *)
Definition i16 (lo hi : Z) : Z :=
  let u := u16 lo hi in if (u <? 32768)%Z then u else (u - 65536)%Z.

Fixpoint decode_samples (bytes : list Z) : list Z :=
  match bytes with
  | lo :: hi :: r => i16 lo hi :: decode_samples r
  | _ => []
  end.

(** The fields of a canonical 44-byte PCM header. *)
Record Header := {
  riffSize : Z;
  fmtSize : Z;
  audioFormat : Z;
  channels : Z;
  rate : Z;
  byteRate : Z;
  blockAlign : Z;
  bitsPerSample : Z;
  dataSize : Z
}.

Definition tag (text : string) (a b c d : Z) : bool :=
  match writeUTFBytes text with
  | [w; x; y; z] => ((a =? w) && (b =? x) && (c =? y) && (d =? z))%Z
  | _ => false
  end.

(** Reads the header: the four tags must be in place. *)
Definition parse_header (bytes : list Z) : option Header :=
  match bytes with
  | r0 :: r1 :: r2 :: r3 :: s0 :: s1 :: s2 :: s3
    :: w0 :: w1 :: w2 :: w3 :: f0 :: f1 :: f2 :: f3
    :: n0 :: n1 :: n2 :: n3 :: a0 :: a1 :: c0 :: c1
    :: h0 :: h1 :: h2 :: h3 :: y0 :: y1 :: y2 :: y3
    :: k0 :: k1 :: p0 :: p1
    :: d0 :: d1 :: d2 :: d3 :: z0 :: z1 :: z2 :: z3 :: _ =>
      if tag "RIFF" r0 r1 r2 r3 && tag "WAVE" w0 w1 w2 w3
         && tag "fmt " f0 f1 f2 f3 && tag "data" d0 d1 d2 d3
      then Some {| riffSize := u32 s0 s1 s2 s3;
                   fmtSize := u32 n0 n1 n2 n3;
                   audioFormat := u16 a0 a1;
                   channels := u16 c0 c1;
                   rate := u32 h0 h1 h2 h3;
                   byteRate := u32 y0 y1 y2 y3;
                   blockAlign := u16 k0 k1;
                   bitsPerSample := u16 p0 p1;
                   dataSize := u32 z0 z1 z2 z3 |}
      else None
  | _ => None
  end.

(** The sample value the data section should hold for amplitude [x]. *)
Definition pcm16 (x : Q) : Z := truncate (scale (clamp x)).

(** Sizes that fit the header's fields. *)
Definition fits (b : AudioBuffer) : Prop :=
  (0 <= sampleRate b < 4294967296)%Z
  /\ (sampleRate b * 2 * Z.of_nat (numberOfChannels b) < 4294967296)%Z
  /\ (Z.of_nat (numberOfChannels b) * 2 < 65536)%Z
  /\ (wav_length b < 4294967296)%Z.

(** One second at 8 Hz, mono: eight samples, some beyond the range. *)
Definition chirp : AudioBuffer :=
  {| sampleRate := 8; frames := 8;
     channelData := [[0; 0.5; 1; 1.5; -0.5; -1; -2; 0.25]] |}.

End Wav.

(** ** tests/pauseResume.test.ts *)
Module PauseTest.

Record PauseEvent := { start : Q; end_ : Q }.


(** The events of the test. *)
Definition events : list PauseEvent :=
  [{| start := 12; end_ := 15.3 |}; {| start := 47.1; end_ := 48 |}].


End PauseTest.

(** ** Counting engine calls *)
Module Trace.






End Trace.

(** * Part II: lemmas and theorems *)

Module JsFacts.
Import Js.

Lemma gt_true (a b : Q) : gt a b = true <-> b < a.
Proof.
  unfold gt. rewrite negb_true_iff.
  split; intro H.
  - apply Qnot_le_lt. intro L. apply Qle_bool_iff in L. congruence.
  - destruct (Qle_bool a b) eqn:E; [|reflexivity].
    apply Qle_bool_iff in E. lra.
Qed.

Lemma gt_false (a b : Q) : gt a b = false <-> a <= b.
Proof.
  unfold gt. rewrite negb_false_iff. apply Qle_bool_iff.
Qed.

Lemma lt_true (a b : Q) : lt a b = true <-> a < b.
Proof. exact (gt_true b a). Qed.

Lemma lt_false (a b : Q) : lt a b = false <-> b <= a.
Proof. exact (gt_false b a). Qed.

Lemma Math_max_lower (a b : Q) : a <= Math_max a b.
Proof.
  unfold Math_max. destruct (lt a b) eqn:E.
  - apply lt_true in E. lra.
  - lra.
Qed.

End JsFacts.

(** ** The planning sweep *)
Module ExporterFacts.
Import Js JsFacts Exporter.

Lemma covers_true (t a b : Q) : covers t (a, b) = true <-> a <= t /\ t < b.
Proof.
  unfold covers; simpl. rewrite andb_true_iff, Qle_bool_iff, lt_true.
  reflexivity.
Qed.

Lemma covers_false (t a b : Q) : covers t (a, b) = false <-> t < a \/ b <= t.
Proof.
  unfold covers; simpl. rewrite andb_false_iff, lt_false. split.
  - intros [H | H]; [left | right; exact H].
    apply Qnot_le_lt. intro L. apply Qle_bool_iff in L. congruence.
  - intros [H | H]; [left | right; exact H].
    destruct (Qle_bool a t) eqn:E; [|reflexivity].
    apply Qle_bool_iff in E. lra.
Qed.

Lemma cover_count_cons (t : Q) (r : Q * Q) (rs : list (Q * Q)) :
  cover_count t (r :: rs)
  = ((if covers t r then 1 else 0) + cover_count t rs)%nat.
Proof.
  unfold cover_count; simpl. destruct (covers t r); reflexivity.
Qed.

(** The cursor only moves forward along an ordered ledger. *)
Lemma final_cursor_ge (ps : list PauseRange) :
  forall c, ordered c ps -> c <= final_cursor c ps.
Proof.
  induction ps as [|p ps IH]; simpl; intros c H.
  - lra.
  - destruct H as [H1 H2]. specialize (IH _ H2). lra.
Qed.

(** The sweep from cursor [c]: each instant of [[c, total)] is in exactly
    one copied range or in a skipped candidate, and no copied range reaches
    outside [[c, total)]. *)
Lemma sweep_cover (total : Q) (ps : list PauseRange) :
  forall c idx, ordered c ps -> final_cursor c ps <= total ->
  forall t,
    (c <= t /\ t < total ->
       cover_count t (real_ranges total (sweep c idx ps)) = 1%nat
       \/ (cover_count t (real_ranges total (sweep c idx ps)) = 0%nat
           /\ exists a b, In (a, b) (elided c ps)
                          /\ a <= t /\ t < b /\ b - a <= eps))
    /\ (cover_count t (real_ranges total (sweep c idx ps)) <> 0%nat ->
        c <= t /\ t < total).
Proof.
  induction ps as [|p ps IH]; intros c idx Hord Hfin t.
  - simpl in *. unfold cover_count; simpl.
    destruct (covers t (c, total)) eqn:E; simpl.
    + apply covers_true in E. split; [intros _; left; reflexivity | intros _; exact E].
    + apply covers_false in E. split.
      * intros [H1 H2]. lra.
      * intro H. exfalso. apply H. reflexivity.
  - simpl in Hord, Hfin. destruct Hord as [Hc Hord].
    pose proof (final_cursor_ge ps _ Hord) as Hge.
    simpl sweep. simpl elided.
    destruct (gt (startVideoTime p) (c + eps)) eqn:G.
    + apply gt_true in G.
      simpl real_ranges. rewrite cover_count_cons.
      destruct (IH (startVideoTime p) (S (S idx)) Hord Hfin t) as [IH1 IH2].
      destruct (covers t (c, startVideoTime p)) eqn:E.
      * apply covers_true in E.
        assert (Z0 : cover_count t
                  (real_ranges total (sweep (startVideoTime p) (S (S idx)) ps)) = 0%nat).
        { destruct (Nat.eq_dec (cover_count t
                  (real_ranges total (sweep (startVideoTime p) (S (S idx)) ps))) 0)
            as [e|n]; [exact e|]. apply IH2 in n. lra. }
        rewrite Z0. split; [intros _; left; reflexivity|].
        intros _. split; [tauto | lra].
      * apply covers_false in E. simpl Nat.add. split.
        -- intros [H1 H2].
           assert (Hs : startVideoTime p <= t /\ t < total) by (split; lra).
           destruct (IH1 Hs) as [One | [Zero (a & b & Hin & Ha & Hb & Hlen)]].
           ++ left; exact One.
           ++ right. split; [exact Zero|]. exists a, b. tauto.
        -- intro H. apply IH2 in H. split; lra.
    + apply gt_false in G.
      simpl real_ranges.
      destruct (IH (startVideoTime p) (S idx) Hord Hfin t) as [IH1 IH2].
      split.
      * intros [H1 H2].
        destruct (Qlt_le_dec t (startVideoTime p)) as [Lt | Ge].
        -- right. split.
           ++ destruct (Nat.eq_dec (cover_count t
                  (real_ranges total (sweep (startVideoTime p) (S idx) ps))) 0)
                as [e|n]; [exact e|]. apply IH2 in n. lra.
           ++ exists c, (startVideoTime p). split; [left; reflexivity|].
              repeat split; try assumption. lra.
        -- assert (Hs : startVideoTime p <= t /\ t < total) by (split; lra).
           destruct (IH1 Hs) as [One | [Zero (a & b & Hin & Ha & Hb & Hlen)]].
           ++ left; exact One.
           ++ right. split; [exact Zero|]. exists a, b.
              split; [right; exact Hin | tauto].
      * intro H. apply IH2 in H. split; lra.
Qed.

Lemma ascending_weaken (rs : list (Q * Q)) (c c' : Q) :
  c <= c' -> ascending c' rs -> ascending c rs.
Proof.
  destruct rs as [|[a b] r]; simpl; [tauto|].
  intros Hc (H1 & H2 & H3). repeat split; try assumption. lra.
Qed.

(** The copied ranges of a sweep come out in increasing order. *)
Lemma sweep_ascending (total : Q) (ps : list PauseRange) :
  forall c idx, ordered c ps -> final_cursor c ps <= total ->
  ascending c (real_ranges total (sweep c idx ps)).
Proof.
  induction ps as [|p ps IH]; intros c idx Hord Hfin; simpl in *.
  - repeat split; lra.
  - destruct Hord as [Hc Hord].
    destruct (gt (startVideoTime p) (c + eps)) eqn:G; simpl.
    + repeat split; try lra. apply IH; assumption.
    + apply ascending_weaken with (c' := startVideoTime p); [exact Hc|].
      apply IH; assumption.
Qed.

(** C1.  For a ledger whose start times begin at or after 0 and never
    decrease, and a total duration at or after the last pause start: every
    instant of [[0, totalDuration)] lies in exactly one copied source range
    of the plan, unless it lies in a candidate range the guard skipped,
    which is then no longer than 0.001 s; no instant is in two copied
    ranges, none outside [[0, totalDuration)] is in any, and the ranges come
    out in increasing order.  So the copied ranges, in plan order, tile the
    video once, without overlap, up to the skipped slivers. *)
Theorem plan_real_ranges_cover (pauses : list PauseRange) (totalDuration : Q) :
  ordered 0 pauses ->
  final_cursor 0 pauses <= totalDuration ->
  ascending 0 (real_ranges totalDuration (plan pauses))
  /\ forall t,
    (0 <= t /\ t < totalDuration ->
       cover_count t (real_ranges totalDuration (plan pauses)) = 1%nat
       \/ (cover_count t (real_ranges totalDuration (plan pauses)) = 0%nat
           /\ exists a b, In (a, b) (elided 0 pauses)
                          /\ a <= t /\ t < b /\ b - a <= eps))
    /\ (cover_count t (real_ranges totalDuration (plan pauses)) <= 1)%nat
    /\ (cover_count t (real_ranges totalDuration (plan pauses)) = 1%nat ->
        0 <= t /\ t < totalDuration).
Proof.
  intros Hord Hfin. unfold plan.
  split; [apply sweep_ascending; assumption|]. intro t.
  destruct (sweep_cover totalDuration pauses 0 0%nat Hord Hfin t) as [H1 H2].
  split; [exact H1|]. split.
  - destruct (Nat.eq_dec
      (cover_count t (real_ranges totalDuration (sweep 0 0 pauses))) 0) as [e|n].
    + rewrite e. lia.
    + apply H2 in n. destruct (H1 n) as [One | [Zero _]]; lia.
  - intro One. apply H2. lia.
Qed.

(** The two-pause scenario over a video of 60 s. *)
Lemma plan_real_ranges_cover_witness :
  ascending 0 (real_ranges 60 (plan two_pauses))
  /\ forall t,
    (0 <= t /\ t < 60 ->
       cover_count t (real_ranges 60 (plan two_pauses)) = 1%nat
       \/ (cover_count t (real_ranges 60 (plan two_pauses)) = 0%nat
           /\ exists a b, In (a, b) (elided 0 two_pauses)
                          /\ a <= t /\ t < b /\ b - a <= eps))
    /\ (cover_count t (real_ranges 60 (plan two_pauses)) <= 1)%nat
    /\ (cover_count t (real_ranges 60 (plan two_pauses)) = 1%nat ->
        0 <= t /\ t < 60).
Proof.
  apply (plan_real_ranges_cover two_pauses 60).
  - simpl. repeat split; lra.
  - simpl. lra.
Defined.

(** The specification's three scenarios. *)
Example plan_two_pauses :
  plan two_pauses
  = [CopyRange 0 12 0; Freeze 1 "frame-a" 3.3 1; CopyRange 12 47.1 2;
     Freeze 3 "frame-b" 0.9 3; CopyTail 47.1 4]
  /\ real_ranges 60 (plan two_pauses) = [(0, 12); (12, 47.1); (47.1, 60)].
Proof. split; reflexivity. Qed.

Example plan_no_pause :
  plan [] = [CopyTail 0 0] /\ real_ranges 10 (plan []) = [(0, 10)].
Proof. split; reflexivity. Qed.

Example plan_pause_at_zero :
  plan [{| startVideoTime := 0; pauseDuration := 1; frameDataURL := "f" |}]
  = [Freeze 0 "f" 1 0; CopyTail 0 1].
Proof. reflexivity. Qed.

(** The sweep emits one freeze per pause, whatever the cursor and index. *)
Lemma freezes_sweep (ps : list PauseRange) :
  forall c idx,
    freezes (sweep c idx ps)
    = map (fun p => (frameDataURL p, pauseDuration p)) ps.
Proof.
  induction ps as [|p ps IH]; intros c idx; simpl; [reflexivity|].
  destruct (gt (startVideoTime p) (c + eps)); simpl; rewrite IH; reflexivity.
Qed.

(** C2.  The freeze segments of the plan are, in order, exactly the pause
    events' still frames and durations, copied unchanged: one per pause, no
    clamp. *)
Theorem plan_freezes_verbatim (pauses : list PauseRange) :
  freezes (plan pauses)
  = map (fun p => (frameDataURL p, pauseDuration p)) pauses
  /\ List.length (freezes (plan pauses)) = List.length pauses.
Proof.
  unfold plan. rewrite freezes_sweep. split; [reflexivity|].
  apply length_map.
Qed.

End ExporterFacts.

(** ** The trim editor: undo and redo as a linear history *)
Module TrimFacts.
Import Main Spec.

Lemma replay_cons (o r : TrimRange) (rs : list TrimRange) :
  replay o (r :: rs) = replay r rs.
Proof. reflexivity. Qed.

Lemma replay_snoc (o r : TrimRange) (rs : list TrimRange) :
  replay o (rs ++ [r]) = r.
Proof. unfold replay. rewrite fold_left_app. reflexivity. Qed.

Lemma steps_length (rs : list TrimRange) :
  forall o, List.length (steps o rs) = List.length rs.
Proof. induction rs as [|r rs IH]; intro o; simpl; [|rewrite IH]; reflexivity. Qed.

Lemma steps_app (a b : list TrimRange) :
  forall o, steps o (a ++ b) = steps o a ++ steps (replay o a) b.
Proof.
  induction a as [|r a IH]; intro o; simpl; [reflexivity|].
  rewrite IH. reflexivity.
Qed.

Lemma steps_firstn (rs : list TrimRange) :
  forall o k, firstn k (steps o rs) = steps o (firstn k rs).
Proof.
  induction rs as [|r rs IH]; intros o [|k]; simpl; try reflexivity.
  rewrite IH. reflexivity.
Qed.

(** The step at index [k] of a line: where it sits in the two halves, and
    the ranges it leads from and to. *)
Lemma steps_at (rs : list TrimRange) :
  forall o k, (k < List.length rs)%nat ->
  exists item,
    skipn k (steps o rs) = item :: skipn (S k) (steps o rs)
    /\ firstn (S k) (steps o rs) = firstn k (steps o rs) ++ [item]
    /\ from item = replay o (firstn k rs)
    /\ to item = replay o (firstn (S k) rs).
Proof.
  induction rs as [|r rs IH]; intros o k Hk; simpl in Hk; [lia|].
  destruct k as [|k].
  - exists {| from := o; to := r |}. simpl. repeat split; reflexivity.
  - destruct (IH r k ltac:(lia)) as (item & H1 & H2 & H3 & H4).
    exists item. repeat split.
    + exact H1.
    + change (firstn (S (S k)) (steps o (r :: rs)))
        with ({| from := o; to := r |} :: firstn (S k) (steps r rs)).
      rewrite H2. reflexivity.
    + rewrite H3. reflexivity.
    + rewrite H4. reflexivity.
Qed.

Lemma agrees_start (r0 : TrimRange) : agrees (initial r0) (line_start r0).
Proof. repeat split; simpl; auto. Qed.

Lemma agrees_apply (r : TrimRange) (ed : Editor) (l : Line) :
  agrees ed l -> agrees (applyTrim r ed) (line_apply r l).
Proof.
  intros (Hk & Hu & Hr & Hc).
  assert (Hlen : List.length (firstn (position l) (applied l)) = position l)
    by (apply firstn_length_le; exact Hk).
  assert (Hall : firstn (S (position l)) (steps (origin l)
                   (firstn (position l) (applied l) ++ [r]))
                 = steps (origin l) (firstn (position l) (applied l) ++ [r])).
  { apply firstn_all2. rewrite steps_length, length_app, Hlen. simpl. lia. }
  unfold agrees, applyTrim, line_apply, current;
    cbn [position applied origin trimRange undoStack redoStack].
  repeat split.
  - rewrite length_app, Hlen. simpl. lia.
  - rewrite Hall, steps_app, rev_app_distr. simpl.
    rewrite Hu, Hc, steps_firstn. reflexivity.
  - symmetry. apply skipn_all2.
    rewrite steps_length, length_app, Hlen. simpl. lia.
  - rewrite firstn_all2 by (rewrite length_app, Hlen; simpl; lia).
    symmetry. apply replay_snoc.
Qed.

Lemma agrees_undo (ed : Editor) (l : Line) :
  agrees ed l -> agrees (undo ed) (line_undo l).
Proof.
  intros (Hk & Hu & Hr & Hc).
  unfold agrees, undo, line_undo, current in *; simpl.
  destruct (position l) as [|k] eqn:Ek.
  - simpl in Hu. rewrite Hu. simpl. repeat split; auto.
  - destruct (steps_at (applied l) (origin l) k ltac:(lia))
      as (item & H1 & H2 & H3 & H4).
    rewrite H2, rev_app_distr in Hu. simpl in Hu. rewrite Hu. simpl.
    repeat split.
    + lia.
    + rewrite H1, Hr. reflexivity.
    + exact H3.
Qed.

Lemma agrees_redo (ed : Editor) (l : Line) :
  agrees ed l -> agrees (redo ed) (line_redo l).
Proof.
  intros (Hk & Hu & Hr & Hc).
  unfold agrees, redo, line_redo, current in *; simpl.
  destruct (position l <? List.length (applied l))%nat eqn:E.
  - apply Nat.ltb_lt in E.
    destruct (steps_at (applied l) (origin l) (position l) E)
      as (item & H1 & H2 & H3 & H4).
    rewrite H1 in Hr. rewrite Hr.
    cbn [position applied origin trimRange undoStack redoStack]. repeat split.
    + lia.
    + rewrite H2, rev_app_distr, Hu. reflexivity.
    + exact H4.
  - apply Nat.ltb_ge in E.
    rewrite skipn_all2 in Hr by (rewrite steps_length; exact E).
    rewrite Hr. cbn [position applied origin trimRange undoStack redoStack].
    repeat split; try assumption.
    rewrite Hr. symmetry. apply skipn_all2. rewrite steps_length. exact E.
Qed.

Lemma agrees_edit (op : EditorOp) (ed : Editor) (l : Line) :
  agrees ed l -> agrees (edit ed op) (line_edit l op).
Proof.
  destruct op as [r | [pcm|] | | ]; simpl; intro H.
  - apply agrees_apply; exact H.
  - apply agrees_apply; exact H.
  - exact H.
  - apply agrees_undo; exact H.
  - apply agrees_redo; exact H.
Qed.

Lemma agrees_edits (ops : list EditorOp) :
  forall ed l, agrees ed l -> agrees (edits ops ed) (line_edits ops l).
Proof.
  induction ops as [|op ops IH]; intros ed l H; simpl; [exact H|].
  apply IH, agrees_edit, H.
Qed.

(** Two trims, two undos, one redo, then a new trim: the redo entry left
    over is dropped and the range is the new one. *)
Example edits_then_trim :
  let a := {| start := 1 # 10; end_ := 9 # 10 |} in
  let b := {| start := 2 # 10; end_ := 8 # 10 |} in
  let c := {| start := 3 # 10; end_ := 7 # 10 |} in
  let r0 := {| start := 0; end_ := 1 |} in
  edits [ApplyTrim a; ApplyTrim b; Undo; Undo; Redo; ApplyTrim c] (initial r0)
  = {| trimRange := c;
       undoStack := [{| from := a; to := c |}; {| from := r0; to := a |}];
       redoStack := [] |}.
Proof. reflexivity. Qed.

(** C3.  Applying a trim pushes [{from: current, to: new}], installs the
    new range and empties the redo stack; undo with nothing to undo changes
    nothing, otherwise it pops the item, restores its [from] and pushes it on
    the redo stack; redo mirrors it with [to]; and after any sequence of
    trims, undos and redos from two empty stacks the editor agrees with the
    linear history: its current range is the replay of the trims up to the
    history's position, the undo stack the steps before it, the redo stack
    the steps after it. *)
Theorem trim_history_linear (r0 : TrimRange) (ops : list EditorOp) :
  trimRange (edits ops (initial r0))
    = current (line_edits ops (line_start r0))
  /\ agrees (edits ops (initial r0)) (line_edits ops (line_start r0))
  /\ (forall r cur us rs,
        applyTrim r {| trimRange := cur; undoStack := us; redoStack := rs |}
        = {| trimRange := r;
             undoStack := {| from := cur; to := r |} :: us;
             redoStack := [] |})
  /\ (forall cur rs,
        undo {| trimRange := cur; undoStack := []; redoStack := rs |}
        = {| trimRange := cur; undoStack := []; redoStack := rs |})
  /\ (forall cur item us rs,
        undo {| trimRange := cur; undoStack := item :: us; redoStack := rs |}
        = {| trimRange := from item; undoStack := us; redoStack := item :: rs |})
  /\ (forall cur us,
        redo {| trimRange := cur; undoStack := us; redoStack := [] |}
        = {| trimRange := cur; undoStack := us; redoStack := [] |})
  /\ (forall cur item us rs,
        redo {| trimRange := cur; undoStack := us; redoStack := item :: rs |}
        = {| trimRange := to item; undoStack := item :: us; redoStack := rs |}).
Proof.
  pose proof (agrees_edits ops _ _ (agrees_start r0)) as H.
  split; [apply H|]. split; [exact H|].
  repeat split; reflexivity.
Qed.

End TrimFacts.

(** ** The trim-silence range *)
Module SilenceFacts.
Import Js JsFacts Main.

Lemma of_nat_le (a b : nat) : (a <= b)%nat -> of_nat a <= of_nat b.
Proof.
  intro H. unfold of_nat. rewrite <- Zle_Qle. lia.
Qed.

Lemma of_nat_pos (n : nat) : (0 < n)%nat -> 0 < of_nat n.
Proof.
  intro H. unfold of_nat. replace 0 with (inject_Z 0) by reflexivity.
  rewrite <- Zlt_Qlt. lia.
Qed.

Lemma fraction_le (a b n : nat) :
  (0 < n)%nat -> (a <= b)%nat -> of_nat a / of_nat n <= of_nat b / of_nat n.
Proof.
  intros Hn Hab. unfold Qdiv. apply Qmult_le_compat_r.
  - apply of_nat_le, Hab.
  - apply Qlt_le_weak, Qinv_lt_0_compat, of_nat_pos, Hn.
Qed.

Lemma fraction_one (n : nat) : (0 < n)%nat -> of_nat n / of_nat n == 1.
Proof.
  intro Hn. apply Qmult_inv_r. intro E.
  pose proof (of_nat_pos n Hn). lra.
Qed.

Lemma fraction_nonneg (a n : nat) : 0 <= of_nat a / of_nat n.
Proof.
  unfold Qdiv. apply Qmult_le_0_compat.
  - change 0 with (of_nat 0). apply of_nat_le. lia.
  - apply Qinv_le_0_compat. change 0 with (of_nat 0). apply of_nat_le. lia.
Qed.

(** The first loop stops at or before any sample that is not quiet. *)
Lemma leading_le (pcm : list Q) :
  forall k, (k < List.length pcm)%nat -> quiet (nth k pcm 0) = false ->
  (leading pcm <= k)%nat.
Proof.
  induction pcm as [|v r IH]; intros k Hk Hq; simpl in *; [lia|].
  destruct (quiet v) eqn:E; [|lia].
  destruct k as [|k]; [congruence|].
  specialize (IH k ltac:(lia) Hq). lia.
Qed.

Lemma leading_bound (pcm : list Q) : (leading pcm <= List.length pcm)%nat.
Proof.
  induction pcm as [|v r IH]; simpl; [lia|].
  destruct (quiet v); lia.
Qed.

(** The second loop never climbs, and stops at or after any sample at or
    below its start that is not quiet. *)
Lemma trailing_le (pcm : list Q) (j : nat) : (trailing pcm j <= j)%nat.
Proof.
  induction j as [|j IH]; simpl; [lia|].
  destruct (quiet (nth (S j) pcm 0)); lia.
Qed.

Lemma trailing_ge (pcm : list Q) (k : nat) :
  quiet (nth k pcm 0) = false ->
  forall j, (k <= j)%nat -> (k <= trailing pcm j)%nat.
Proof.
  intros Hq j. induction j as [|j IH]; intro Hk; simpl; [lia|].
  destruct (quiet (nth (S j) pcm 0)) eqn:E; [|exact Hk].
  apply IH. destruct (Nat.eq_dec k (S j)) as [->|]; [congruence | lia].
Qed.

(** When every sample is quiet the first loop runs to the end ... *)
Lemma leading_all_quiet (pcm : list Q) :
  Forall (fun v => quiet v = true) pcm -> leading pcm = List.length pcm.
Proof.
  induction 1 as [|v r Hv _ IH]; simpl; [reflexivity|].
  rewrite Hv, IH. reflexivity.
Qed.

(** ... and the second one down to index 0, where [j > 0] stops it. *)
Lemma trailing_all_quiet (pcm : list Q) :
  Forall (fun v => quiet v = true) pcm ->
  forall j, (j < List.length pcm)%nat -> trailing pcm j = 0%nat.
Proof.
  intros Hall j. induction j as [|j IH]; intro Hj; simpl; [reflexivity|].
  rewrite Forall_forall in Hall.
  rewrite (Hall (nth (S j) pcm 0)) by (apply nth_In; exact Hj).
  apply IH. lia.
Qed.

(** A buffer with a sample at or above the threshold gets a range within
    [0, 1] whose start does not pass its end. *)
Lemma silenceRange_ok_when_heard (pcm : list Q) (k : nat) :
  (k < List.length pcm)%nat -> quiet (nth k pcm 0) = false ->
  range_ok (silenceRange pcm).
Proof.
  intros Hk Hq. unfold range_ok, silenceRange; simpl.
  pose proof (leading_le pcm k Hk Hq) as Hi.
  pose proof (trailing_ge pcm k Hq (List.length pcm - 1) ltac:(lia)) as Hj.
  pose proof (trailing_le pcm (List.length pcm - 1)) as Hj'.
  repeat split.
  - apply fraction_nonneg.
  - apply fraction_le; lia.
  - rewrite <- (fraction_one (List.length pcm)) by lia.
    apply fraction_le; lia.
Qed.

(** A buffer of two or more samples, all quiet, gets start 1 and end
    [1 / length]: the start passes the end. *)
Lemma silenceRange_all_quiet (pcm : list Q) :
  (2 <= List.length pcm)%nat -> Forall (fun v => quiet v = true) pcm ->
  start (silenceRange pcm) == 1
  /\ end_ (silenceRange pcm) == 1 / of_nat (List.length pcm)
  /\ end_ (silenceRange pcm) < start (silenceRange pcm).
Proof.
  intros Hlen Hall. unfold silenceRange; simpl.
  rewrite (leading_all_quiet pcm Hall).
  rewrite (trailing_all_quiet pcm Hall) by lia.
  assert (H1 : of_nat (List.length pcm) / of_nat (List.length pcm) == 1)
    by (apply fraction_one; lia).
  split; [exact H1|]. split; [reflexivity|].
  apply Qlt_le_trans with (of_nat (List.length pcm) / of_nat (List.length pcm));
    [|rewrite H1; lra].
  unfold Qdiv. apply Qmult_lt_compat_r.
  - apply Qinv_lt_0_compat, of_nat_pos. lia.
  - unfold of_nat. rewrite <- Zlt_Qlt. lia.
Qed.

Lemma undo_keeps_order (ed : Editor) : items_ok ed -> items_ok (undo ed).
Proof.
  unfold items_ok, undo.
  destruct (undoStack ed) as [|item rest] eqn:E; simpl; [rewrite E; tauto|].
  intros (Hc & Hu & Hr).
  inversion Hu as [|? ? [Hf Ht] Hrest]; subst.
  repeat split; try assumption; try apply Hf.
  constructor; [split; assumption | exact Hr].
Qed.

Lemma redo_keeps_order (ed : Editor) : items_ok ed -> items_ok (redo ed).
Proof.
  unfold items_ok, redo.
  destruct (redoStack ed) as [|item rest] eqn:E; simpl; [rewrite E; tauto|].
  intros (Hc & Hu & Hr).
  inversion Hr as [|? ? [Hf Ht] Hrest]; subst.
  repeat split; try assumption; try apply Ht.
  constructor; [split; assumption | exact Hu].
Qed.

(** C8.  On a buffer of two samples, both below the silence threshold, the
    trim-silence handler installs the range start = 1, end = 1/2: the first
    loop runs to the end of the buffer while the second stops at index 0, so
    [0 <= start <= end <= 1] does not hold in the state reached. *)
Theorem trimSilence_silent_buffer_breaks_order :
  start (trimRange (trimSilence (Some [0; 0]) (initial {| start := 0; end_ := 1 |}))) == 1
  /\ end_ (trimRange (trimSilence (Some [0; 0]) (initial {| start := 0; end_ := 1 |}))) == 1 # 2
  /\ ~ range_ok (trimRange (trimSilence (Some [0; 0]) (initial {| start := 0; end_ := 1 |}))).
Proof.
  split; [reflexivity|]. split; [reflexivity|].
  unfold range_ok. intros (_ & H & _). vm_compute in H. apply H. reflexivity.
Qed.

End SilenceFacts.

(** ** Pause bookkeeping *)
Module SessionFacts.
Import Js JsFacts Main.

Lemma togglePause_floored (now : Q) (frame : string) (s : Session) :
  Forall floored (pauses s) -> Forall floored (pauses (togglePause now frame s)).
Proof.
  intro H. unfold togglePause.
  destruct (negb (isRecording s)); [exact H|].
  destruct (negb (paused s)); simpl; [exact H|].
  destruct (lastPause s) as [lp|]; [|exact H].
  apply Forall_app. split; [exact H|].
  constructor; [|constructor].
  unfold floored; simpl. apply Math_max_lower.
Qed.

Lemma handle_floored (e : Event) (s : Session) :
  Forall floored (pauses s) -> Forall floored (pauses (handle s e)).
Proof.
  intro H. destruct e; simpl.
  - apply togglePause_floored; exact H.
  - destruct (isRecording s); exact H.
  - exact H.
  - destruct (isRecording s); exact H.
  - destruct (isRecording s); exact H.
  - exact H.
  - exact H.
Qed.

Lemma session_floored (events : list Event) :
  forall s, Forall floored (pauses s) -> Forall floored (pauses (session events s)).
Proof.
  induction events as [|e es IH]; intros s H; simpl; [exact H|].
  apply IH, handle_floored, H.
Qed.

(** A pause at 12 s of video held for 3.3 s of wall clock, and one resumed
    within the same millisecond. *)
Example session_two_pauses :
  pauses (session [StartRecording; Playback 12; TogglePause 5000 "f"; OnPause 5001;
                   TogglePause 8301 "g"; OnPlay; Playback 20;
                   TogglePause 9000 "h"; OnPause 9001; TogglePause 9001 "i"]
                  fresh)
  = [{| Exporter.startVideoTime := 12; Exporter.pauseDuration := 3300 / 1000;
        Exporter.frameDataURL := "f" |};
     {| Exporter.startVideoTime := 20; Exporter.pauseDuration := 0.01;
        Exporter.frameDataURL := "h" |}].
Proof. reflexivity. Qed.

(** C9.  Whatever the page goes through (pause toggles at any clock
    readings, the video element's pause and play events in any order,
    recording starts and stops, playback), every pause event in the ledger
    has [pauseDuration >= 0.01]; and a toggle that resumes from a recorded
    pause appends exactly one event whose duration is
    [Math.max(0.01, elapsed)]. *)
Theorem committed_pause_duration_floor (events : list Event) :
  Forall (fun p => 0.01 <= Exporter.pauseDuration p)
         (pauses (session events fresh))
  /\ (forall now frame t f prev ps rec_time,
        pauses (togglePause now frame
                  {| isRecording := true; paused := true; currentTime := rec_time;
                     lastPause := Some (t, f); pauseStartAt := prev; pauses := ps |})
        = ps ++ [{| Exporter.startVideoTime := t;
                    Exporter.pauseDuration :=
                      Math_max 0.01
                        (if truthy prev
                         then (now - match prev with Some v => v | None => 0 end) / 1000
                         else 0.01);
                    Exporter.frameDataURL := f |}]).
Proof.
  split.
  - apply (session_floored events fresh). constructor.
  - intros. reflexivity.
Qed.

End SessionFacts.

(** ** [doExport] without a recording *)
Module ExportFacts.
Import Main.

(** C6.  When no narration has been recorded ([audioBlob] is unset),
    [doExport] only raises the no-narration alert: its whole effect is that
    one alert, so no engine operation (load, write, run or read) and no
    progress update happens. *)
Theorem doExport_without_narration (Number_toString : Q -> string) (pg : Page) :
  audioBlob pg = false ->
  doExport Number_toString pg = [Alert NoNarrationRecorded]
  /\ forall op, ~ In (Engine op) (doExport Number_toString pg).
Proof.
  intro H. unfold doExport. rewrite H. simpl. split; [reflexivity|].
  intros op [E | []]. discriminate E.
Qed.

(** A freshly loaded page, nothing recorded. *)
Lemma doExport_without_narration_witness :
  doExport (fun _ => ""%string)
    {| audioBlob := false; audioPCM := None;
       pageTrim := {| start := 0; end_ := 1 |}; pagePauses := [];
       normalize := false; libraryLoaded := true |}
  = [Alert NoNarrationRecorded]
  /\ forall op,
       ~ In (Engine op)
           (doExport (fun _ => ""%string)
              {| audioBlob := false; audioPCM := None;
                 pageTrim := {| start := 0; end_ := 1 |}; pagePauses := [];
                 normalize := false; libraryLoaded := true |}).
Proof.
  apply (doExport_without_narration (fun _ => ""%string)). reflexivity.
Defined.

(** With a recording and the library present the engine is the first thing
    touched after the progress bar. *)
Lemma doExport_with_narration_loads (Number_toString : Q -> string) (pg : Page) :
  audioBlob pg = true -> libraryLoaded pg = true ->
  In (Engine Exporter.Load) (doExport Number_toString pg).
Proof.
  intros Ha Hl. unfold doExport, Exporter.export, Exporter.ensureFFmpeg.
  rewrite Ha, Hl. destruct (audioPCM pg); simpl; tauto.
Qed.

End ExportFacts.

(** ** The waveform envelope *)
Module WaveformFacts.
Import Js JsFacts Waveform.

Lemma skipn_nth_cons {A} (d : A) (l : list A) :
  forall k, (k < List.length l)%nat -> skipn k l = nth k l d :: skipn (S k) l.
Proof.
  induction l as [|a l IH]; intros k Hk; simpl in Hk; [lia|].
  destruct k as [|k]; [reflexivity|].
  simpl. apply IH. lia.
Qed.

(** The inner loop is a left fold of [widen] over the samples it reaches. *)
Lemma scan_fold (float32 : list Q) (start : nat) :
  forall n i mn mx,
    scan float32 start i n mn mx
    = fold_left widen (firstn n (skipn (start + i) float32)) (mn, mx).
Proof.
  induction n as [|n IH]; intros i mn mx; [reflexivity|].
  cbn [scan].
  destruct (start + i <? List.length float32)%nat eqn:E.
  - apply Nat.ltb_lt in E.
    rewrite (skipn_nth_cons 0 float32 _ E).
    cbn [firstn fold_left]. rewrite IH.
    replace (start + S i)%nat with (S (start + i)) by lia.
    reflexivity.
  - apply Nat.ltb_ge in E. rewrite skipn_all2 by exact E.
    reflexivity.
Qed.

Lemma column_fold (float32 : list Q) (width x : nat) :
  column float32 width x = fold_left widen (window float32 width x) (1, -1).
Proof.
  unfold column, window. rewrite scan_fold.
  rewrite Nat.add_0_r. reflexivity.
Qed.

(** What a fold of [widen] returns: bounds of everything folded, each
    either the starting value or one of the samples. *)
Lemma widen_fold_bounds (w : list Q) :
  forall mn0 mx0,
    let r := fold_left widen w (mn0, mx0) in
    fst r <= mn0 /\ mx0 <= snd r
    /\ (forall v, In v w -> fst r <= v /\ v <= snd r)
    /\ (fst r = mn0 \/ In (fst r) w)
    /\ (snd r = mx0 \/ In (snd r) w).
Proof.
  induction w as [|u w IH]; intros mn0 mx0; cbn zeta.
  - simpl. repeat split; try lra; try tauto.
  - change (fold_left widen (u :: w) (mn0, mx0))
      with (fold_left widen w
              (if lt u mn0 then u else mn0, if gt u mx0 then u else mx0)).
    specialize (IH (if lt u mn0 then u else mn0) (if gt u mx0 then u else mx0)).
    cbn zeta in IH. destruct IH as (H1 & H2 & H3 & H4 & H5).
    set (r := fold_left widen w
                (if lt u mn0 then u else mn0, if gt u mx0 then u else mx0)) in *.
    assert (Hmn : (if lt u mn0 then u else mn0) <= mn0
                  /\ (if lt u mn0 then u else mn0) <= u).
    { destruct (lt u mn0) eqn:E; [apply lt_true in E | apply lt_false in E];
        split; lra. }
    assert (Hmx : mx0 <= (if gt u mx0 then u else mx0)
                  /\ u <= (if gt u mx0 then u else mx0)).
    { destruct (gt u mx0) eqn:E; [apply gt_true in E | apply gt_false in E];
        split; lra. }
    repeat split.
    + lra.
    + lra.
    + destruct H as [<- | H]; [lra | apply H3, H].
    + destruct H as [<- | H]; [lra | apply H3, H].
    + destruct H4 as [H4 | H4]; [|right; right; exact H4].
      rewrite H4. destruct (lt u mn0); [right; left; reflexivity | left; reflexivity].
    + destruct H5 as [H5 | H5]; [|right; right; exact H5].
      rewrite H5. destruct (gt u mx0); [right; left; reflexivity | left; reflexivity].
Qed.

Lemma window_length (float32 : list Q) (width x : nat) :
  List.length (window float32 width x)
  = Nat.min (step_of (List.length float32) width)
            (List.length float32 - x * step_of (List.length float32) width).
Proof.
  unfold window. rewrite length_firstn, length_skipn. reflexivity.
Qed.

Lemma window_nth (float32 : list Q) (width x k : nat) :
  (k < List.length (window float32 width x))%nat ->
  nth k (window float32 width x) 0
  = nth (x * step_of (List.length float32) width + k) float32 0.
Proof.
  intro Hk. rewrite window_length in Hk. unfold window.
  rewrite nth_firstn.
  destruct (k <? step_of (List.length float32) width)%nat eqn:E;
    [|apply Nat.ltb_ge in E; lia].
  apply nth_skipn.
Qed.

Lemma step_of_times (len width : nat) :
  (width <= len)%nat -> (width * step_of len width <= len)%nat.
Proof.
  intro H. unfold step_of.
  destruct width as [|w]; [lia|].
  assert (1 <= len / S w)%nat by (apply Nat.div_le_lower_bound; lia).
  rewrite Nat.max_r by lia.
  apply Nat.Div0.mul_div_le.
Qed.

(** With at least [width] samples every window is full. *)
Lemma window_full (float32 : list Q) (width x : nat) :
  (x < width)%nat -> (width <= List.length float32)%nat ->
  List.length (window float32 width x) = step_of (List.length float32) width.
Proof.
  intros Hx Hw. rewrite window_length.
  pose proof (step_of_times _ _ Hw) as H.
  apply Nat.min_l. nia.
Qed.

Lemma columns_length (float32 : list Q) (width : nat) :
  List.length (columns float32 width) = width.
Proof. unfold columns. rewrite length_map, length_seq. reflexivity. Qed.

Lemma columns_nth (float32 : list Q) (width x : nat) (d : Q * Q) :
  (x < width)%nat -> nth x (columns float32 width) d = column float32 width x.
Proof.
  intro Hx. unfold columns.
  rewrite (nth_indep _ d (column float32 width 0))
    by (rewrite length_map, length_seq; exact Hx).
  rewrite map_nth, seq_nth by exact Hx. reflexivity.
Qed.

Example columns_short_buffer :
  columns [0.25; - 0.5] 4 = [(0.25, 0.25); (- 0.5, - 0.5); (1, -1); (1, -1)].
Proof. reflexivity. Qed.

(** C4, as the code has it.  For every buffer and width the sampler yields
    exactly [width] pairs.  Column [x] scans the window of
    [step = max(1, floor(len / width))] samples that starts at [x * step],
    cut at the end of the buffer: contiguous samples, all [step] of them
    when the buffer has at least [width] samples.  Its pair bounds every
    sample of the window from below and above, and each component is a sample
    of the window or the starting value (1 for min, -1 for max); an empty
    window leaves the starting pair (1, -1). *)
Theorem columns_envelope (float32 : list Q) (width : nat) :
  List.length (columns float32 width) = width
  /\ forall x, (x < width)%nat ->
       let step := step_of (List.length float32) width in
       let w := window float32 width x in
       let r := nth x (columns float32 width) (0, 0) in
       step = Nat.max 1 (List.length float32 / width)
       /\ List.length w = Nat.min step (List.length float32 - x * step)
       /\ (width <= List.length float32 -> List.length w = step)%nat
       /\ (forall k, (k < List.length w)%nat ->
             nth k w 0 = nth (x * step + k) float32 0)
       /\ (forall v, In v w -> fst r <= v /\ v <= snd r)
       /\ (fst r = 1 \/ In (fst r) w)
       /\ (snd r = -1 \/ In (snd r) w)
       /\ (w = [] -> r = (1, -1)).
Proof.
  split; [apply columns_length|].
  intros x Hx. cbn zeta.
  rewrite (columns_nth _ _ _ _ Hx), column_fold.
  destruct (widen_fold_bounds (window float32 width x) 1 (-1))
    as (_ & _ & H3 & H4 & H5).
  split; [reflexivity|].
  split; [apply window_length|].
  split; [intro Hw; apply window_full; assumption|].
  split; [intros k Hk; apply window_nth; exact Hk|].
  split; [exact H3|]. split; [exact H4|]. split; [exact H5|].
  intro E. rewrite E. reflexivity.
Qed.

(** C4 at a concrete input.  The claim's sampler and the code's differ on
    ten samples and four columns: the code scans windows of two samples (and
    never reaches the last two), the claim's windows hold three. *)
Lemma columns_not_ceil_windows :
  step_of 10 4 = 2%nat
  /\ Spec.window_size 10 4 = 3%nat
  /\ columns Spec.ten_samples 4 = [(0, 0); (0, 0.5); (0, 0); (0, 0)]
  /\ Spec.sample Spec.ten_samples 4 = [(0, 0.5); (0, 0); (0, 0); (-0.5, -0.5)]
  /\ columns Spec.ten_samples 4 <> Spec.sample Spec.ten_samples 4.
Proof.
  repeat split; try reflexivity.
  vm_compute. discriminate.
Qed.

Lemma map_constant_seq {A} (c : A) (f : nat -> A) (n : nat) :
  forall s, (forall x, f x = c) -> map f (seq s n) = repeat c n.
Proof.
  induction n as [|n IH]; intros s H; simpl; [reflexivity|].
  rewrite H, IH by exact H. reflexivity.
Qed.

(** C5, as the code has it.  On an empty buffer the sampler yields exactly
    [width] pairs, each the starting pair (1, -1) of the scan: no sample is
    visited, so nothing replaces it. *)
Theorem columns_of_empty_buffer (width : nat) :
  columns [] width = repeat (1, -1) width
  /\ List.length (columns [] width) = width.
Proof.
  split; [|apply columns_length].
  unfold columns. apply map_constant_seq.
  intro x. unfold column. simpl List.length.
  replace (step_of 0 width) with 1%nat; [reflexivity|].
  unfold step_of. destruct width; reflexivity.
Qed.

(** C5 at a concrete input.  On an empty buffer and three columns the
    pairs are (1, -1), not (0, 0). *)
Lemma columns_of_empty_not_zero :
  columns [] 3 = [(1, -1); (1, -1); (1, -1)]
  /\ columns [] 3 <> repeat (0, 0) 3.
Proof.
  split; [reflexivity|]. vm_compute. discriminate.
Qed.

End WaveformFacts.

(** ** The progress logger *)
Module LoggerFacts.
Import Logger.

Local Open Scope string_scope.
Local Open Scope nat_scope.














Example logger_progress : logger (Some "frame= 10 size= 50% done") = [50].
Proof. reflexivity. Qed.

Example logger_four_digits : logger (Some "size= 1234% done") = [].
Proof. reflexivity. Qed.

Example logger_no_space : logger (Some "50%") = [].
Proof. reflexivity. Qed.

Example logger_decimal_then_plain : logger (Some " 12.5% 7%") = [7].
Proof. reflexivity. Qed.

Example logger_no_message : logger None = [].
Proof. reflexivity. Qed.



End LoggerFacts.

(** ** [toFixed(3)] and the times handed to the engine *)
Module RenderFacts.
Import Js JsFacts Exporter.

Local Open Scope string_scope.

Lemma split_dot_app (a b : string) :
  dotless a = true -> split_dot (a ++ String "." b) = Some (a, b).
Proof.
  induction a as [|c a IH]; intro H; simpl in *; [reflexivity|].
  apply andb_true_iff in H. destruct H as [Hc Ha].
  apply negb_true_iff in Hc. rewrite Hc, (IH Ha). reflexivity.
Qed.

Lemma string_of_uint_dotless (d : Decimal.uint) :
  dotless (NilEmpty.string_of_uint d) = true.
Proof. induction d; simpl; auto. Qed.

Lemma to_uint_nonnil (n : N) : N.to_uint n <> Decimal.Nil.
Proof.
  intro E. pose proof (DecimalN.Unsigned.of_to n) as H.
  rewrite E in H. simpl in H. subst n. discriminate E.
Qed.

Lemma decimal_dotless (n : N) : dotless (decimal n) = true.
Proof.
  unfold decimal. pose proof (to_uint_nonnil n) as H.
  destruct (N.to_uint n) eqn:E; try congruence;
    apply (string_of_uint_dotless (_ u)).
Qed.

(** The digits of [n] read back as [n]. *)
Lemma decimal_reads_back (n : N) :
  option_map N.of_uint (NilZero.uint_of_string (decimal n)) = Some n.
Proof.
  unfold decimal. rewrite NilZero.usu by apply to_uint_nonnil.
  simpl. rewrite DecimalN.Unsigned.of_to. reflexivity.
Qed.

(** A decimal rendering starts with a digit, never with a minus sign. *)
Lemma decimal_head (n : N) :
  exists c r, decimal n = String c r /\ c <> "-"%char.
Proof.
  unfold decimal. pose proof (to_uint_nonnil n) as H.
  destruct (N.to_uint n) eqn:E; try congruence; simpl;
    eexists; eexists; (split; [reflexivity | discriminate]).
Qed.

Lemma digit_value_digit (d : Z) :
  (0 <= d <= 9)%Z -> digit_value (digit d) = Some d.
Proof.
  intro H. unfold digit_value, digit.
  rewrite nat_ascii_embedding by lia.
  replace ((48 <=? 48 + Z.to_nat d)%nat && (48 + Z.to_nat d <=? 57)%nat)%bool
    with true.
  - f_equal. lia.
  - symmetry. apply andb_true_iff. split; apply Nat.leb_le; lia.
Qed.

Lemma frac3_reads_back (r : Z) :
  (0 <= r < 1000)%Z -> read_frac3 (frac3 r) = Some r.
Proof.
  intro H. unfold read_frac3, frac3.
  rewrite !digit_value_digit.
  - f_equal. Z.div_mod_to_equations. lia.
  - Z.div_mod_to_equations. lia.
  - Z.div_mod_to_equations. lia.
  - Z.div_mod_to_equations. lia.
Qed.

Lemma read_unsigned3_render (n : Z) :
  (0 <= n)%Z ->
  read_unsigned3 (decimal (Z.to_N (n / 1000)) ++ "." ++ frac3 (n mod 1000))
  = Some n.
Proof.
  intro H. unfold read_unsigned3.
  change ("." ++ frac3 (n mod 1000)) with (String "." (frac3 (n mod 1000))).
  rewrite split_dot_app by apply decimal_dotless.
  pose proof (decimal_reads_back (Z.to_N (n / 1000))) as D.
  destruct (NilZero.uint_of_string (decimal (Z.to_N (n / 1000)))) as [d|];
    [|discriminate D].
  simpl in D. injection D as D.
  rewrite frac3_reads_back by (apply Z.mod_pos_bound; lia).
  rewrite D, Z2N.id by (apply Z.div_pos; lia).
  f_equal. pose proof (Z.div_mod n 1000). lia.
Qed.

Lemma read_fixed3_unsigned (c : ascii) (r : string) :
  c <> "-"%char ->
  read_fixed3 (String c r)
  = match read_unsigned3 (String c r) with
    | Some n => Some (n # 1000)
    | None => None
    end.
Proof.
  intro H. unfold read_fixed3.
  destruct c as [[] [] [] [] [] [] [] []]; try reflexivity.
  exfalso. apply H. reflexivity.
Qed.

Lemma nearest_milli_nonneg (x : Q) : 0 <= x -> (0 <= nearest_milli x)%Z.
Proof.
  intro H. unfold nearest_milli.
  change 0%Z with (Qfloor 0). apply Qfloor_resp_le. lra.
Qed.

Lemma nearest_milli_close (x : Q) :
  x - (1 # 2000) < nearest_milli x # 1000
  /\ nearest_milli x # 1000 <= x + (1 # 2000).
Proof.
  unfold nearest_milli.
  pose proof (Qfloor_le (x * 1000 + (1 # 2))) as L.
  pose proof (Qlt_floor (x * 1000 + (1 # 2))) as U.
  set (n := Qfloor (x * 1000 + (1 # 2))) in *.
  rewrite inject_Z_plus in U.
  assert (E : n # 1000 == inject_Z n / 1000).
  { rewrite (Qmake_Qdiv n 1000). reflexivity. }
  rewrite E. change (inject_Z 1) with 1 in U.
  split.
  - apply Qlt_shift_div_l; lra.
  - apply Qle_shift_div_r; lra.
Qed.

Example toFixed3_samples :
  toFixed3 (fun _ => "") 47.1 = "47.100"
  /\ toFixed3 (fun _ => "") 12.3456 = "12.346"
  /\ toFixed3 (fun _ => "") 0.0005 = "0.001"
  /\ toFixed3 (fun _ => "") (- 0.0001) = "-0.000"
  /\ toFixed3 (fun _ => "") 0 = "0.000".
Proof. repeat split; reflexivity. Qed.

(** [toFixed(3)] within the fixed-notation range: the rendering reads back
    as the quantized value. *)
Lemma toFixed3_reads_back (Number_toString : Q -> string) (x : Q) :
  in_fixed_range x ->
  read_fixed3 (toFixed3 Number_toString x) = Some (quantize x).
Proof.
  intros [Hlo Hhi]. unfold toFixed3, quantize.
  destruct (lt x 0) eqn:S.
  - apply lt_true in S.
    replace (Qle_bool fixed_limit (- x)) with false
      by (symmetry; apply negb_true_iff; apply (proj2 (lt_true (- x) fixed_limit)); lra).
    pose proof (nearest_milli_nonneg (- x) ltac:(lra)) as N0.
    change ("-" ++ ?s) with (String "-" s).
    cbn [read_fixed3]. rewrite read_unsigned3_render by exact N0.
    reflexivity.
  - apply lt_false in S.
    replace (Qle_bool fixed_limit x) with false
      by (symmetry; apply negb_true_iff; apply (proj2 (lt_true x fixed_limit)); exact Hhi).
    pose proof (nearest_milli_nonneg x S) as N0.
    change ("" ++ ?s) with s.
    destruct (decimal_head (Z.to_N (nearest_milli x / 1000))) as (c & r & E & Hc).
    pose proof (read_unsigned3_render _ N0) as R.
    rewrite E in *. cbn [append] in *.
    rewrite read_fixed3_unsigned by exact Hc.
    rewrite R. reflexivity.
Qed.

(** The quantized value is within half a thousandth of the original. *)
Lemma quantize_close (x : Q) :
  x - (1 # 2000) <= quantize x /\ quantize x <= x + (1 # 2000).
Proof.
  unfold quantize. destruct (lt x 0).
  - destruct (nearest_milli_close (- x)) as [L U].
    assert (E : (- nearest_milli (- x))%Z # 1000 == - (nearest_milli (- x) # 1000))
      by reflexivity.
    rewrite E. split; lra.
  - destruct (nearest_milli_close x) as [L U]. split; lra.
Qed.

Section Times.

Variable Number_toString : Q -> string.

Lemma run_step_times (s : Step) :
  flat_map op_times (run_step Number_toString s)
  = map (fmtTime Number_toString) (step_times s).
Proof. destruct s; reflexivity. Qed.

Lemma run_steps_times (steps : list Step) :
  flat_map op_times (flat_map (run_step Number_toString) steps)
  = map (fmtTime Number_toString) (flat_map step_times steps).
Proof.
  induction steps as [|s steps IH]; [reflexivity|].
  simpl flat_map. rewrite flat_map_app, map_app, run_step_times, IH.
  reflexivity.
Qed.

(** The only time values in the calls of an export are those of the plan's
    steps, each rendered by [fmtTime]. *)
Lemma export_times (ffmpeg libraryLoaded : bool) (pauses : list PauseRange)
    (normalize : bool) (ops : list EngineOp) :
  export Number_toString ffmpeg libraryLoaded pauses normalize = Some ops ->
  flat_map op_times ops
  = map (fmtTime Number_toString) (flat_map step_times (plan pauses)).
Proof.
  unfold export, ensureFFmpeg. intro H.
  destruct ffmpeg; [|destruct libraryLoaded; [|discriminate H]];
    cbv beta iota in H;
    apply (f_equal (fun o => match o with Some x => x | None => [] end)) in H;
    cbv beta iota in H; subst ops;
    rewrite !flat_map_app, run_steps_times;
    destruct normalize; simpl; rewrite app_nil_r; reflexivity.
Qed.

Lemma sweep_times_in_range (ps : list PauseRange) :
  forall c idx, in_fixed_range c -> Forall renderable ps ->
  Forall in_fixed_range (flat_map step_times (sweep c idx ps)).
Proof.
  induction ps as [|p ps IH]; intros c idx Hc Hps; simpl.
  - constructor; [exact Hc | constructor].
  - inversion Hps as [|? ? [Hs Hd] Hrest]; subst.
    destruct (gt (startVideoTime p) (c + eps)); simpl;
      repeat (constructor; try assumption); apply IH; assumption.
Qed.

(** C10.  In an export whose pause times lie in the range where
    [toFixed] writes fixed notation (below 10^21 in size, as every media
    time is), the time values passed to the engine (what follows [-ss],
    [-to] and [-t]) are exactly the [fmtTime] renderings of the plan's
    values in call order: each copied segment's start and end, each freeze's
    duration, the tail's start.  Every one of them reads as an optional
    sign, digits, a point and exactly three digits, and its value is the
    original rounded to the nearest thousandth, so within 0.0005 s of it. *)
Theorem export_times_millisecond (ffmpeg libraryLoaded : bool)
    (pauses : list PauseRange) (normalize : bool) (ops : list EngineOp) :
  Forall renderable pauses ->
  export Number_toString ffmpeg libraryLoaded pauses normalize = Some ops ->
  flat_map op_times ops
    = map (fmtTime Number_toString) (flat_map step_times (plan pauses))
  /\ map read_fixed3 (flat_map op_times ops)
     = map (fun t => Some (quantize t)) (flat_map step_times (plan pauses))
  /\ Forall (fun t => t - (1 # 2000) <= quantize t /\ quantize t <= t + (1 # 2000))
            (flat_map step_times (plan pauses)).
Proof.
  intros Hps Hex.
  pose proof (export_times _ _ _ _ _ Hex) as Ht.
  split; [exact Ht|]. split.
  - rewrite Ht, map_map. apply map_ext_in.
    intros t Hin. apply toFixed3_reads_back.
    assert (R : Forall in_fixed_range (flat_map step_times (plan pauses))).
    { apply sweep_times_in_range; [|exact Hps].
      split; unfold fixed_limit; lra. }
    rewrite Forall_forall in R. exact (R t Hin).
  - apply Forall_forall. intros t _. apply quantize_close.
Qed.

End Times.

(** At [10^21] the rendering is whatever [Number::toString] gives. *)
Lemma toFixed3_beyond_limit (Number_toString : Q -> string) :
  toFixed3 Number_toString fixed_limit = Number_toString fixed_limit.
Proof. reflexivity. Qed.

(** The export of the two-pause scenario on a fresh exporter. *)
Lemma export_times_millisecond_witness :
  exists ops,
    export (fun _ => "") false true two_pauses false = Some ops
    /\ (flat_map op_times ops
         = map (fmtTime (fun _ => "")) (flat_map step_times (plan two_pauses))
        /\ map read_fixed3 (flat_map op_times ops)
           = map (fun t => Some (quantize t)) (flat_map step_times (plan two_pauses))
        /\ Forall (fun t => t - (1 # 2000) <= quantize t
                            /\ quantize t <= t + (1 # 2000))
                  (flat_map step_times (plan two_pauses))).
Proof.
  eexists. split; [reflexivity|].
  apply (export_times_millisecond (fun _ => "") false true two_pauses false).
  - repeat constructor; vm_compute; reflexivity.
  - reflexivity.
Defined.

(** What the engine is given in the two-pause scenario. *)
Example two_pauses_times :
  option_map (flat_map op_times)
    (export (fun _ => "") false true two_pauses false)
  = Some ["0.000"; "12.000"; "3.300"; "12.000"; "47.100"; "0.900"; "47.100"].
Proof. reflexivity. Qed.

End RenderFacts.

(** * Part III: further properties of the code *)

(** ** Undo and redo as inverse moves *)
Module HistoryFacts.
Import Main History.

Lemma linked_initial (r0 : TrimRange) : linked (initial r0).
Proof. split; exact I. Qed.

Lemma linked_applyTrim (r : TrimRange) (ed : Editor) :
  linked ed -> linked (applyTrim r ed).
Proof.
  intros [Hd Hu]. unfold linked, applyTrim; simpl. tauto.
Qed.

Lemma linked_undo (ed : Editor) : linked ed -> linked (undo ed).
Proof.
  unfold linked, undo. intros [Hd Hu].
  destruct (undoStack ed) as [|it us] eqn:E; simpl.
  - rewrite E. split; assumption.
  - destruct Hd as [Ht Hd]. rewrite Ht. tauto.
Qed.

Lemma linked_redo (ed : Editor) : linked ed -> linked (redo ed).
Proof.
  unfold linked, redo. intros [Hd Hu].
  destruct (redoStack ed) as [|it rs] eqn:E; simpl.
  - rewrite E. split; assumption.
  - destruct Hu as [Hf Hu]. rewrite Hf. tauto.
Qed.

Lemma linked_edit (op : EditorOp) (ed : Editor) : linked ed -> linked (edit ed op).
Proof.
  destruct op as [r | [pcm|] | | ]; simpl; intro H;
    auto using linked_applyTrim, linked_undo, linked_redo.
Qed.

(** Every state the three handlers can reach from two empty stacks has its
    history items linked to the current range. *)
Lemma linked_edits (ops : list EditorOp) :
  forall ed, linked ed -> linked (edits ops ed).
Proof.
  induction ops as [|op ops IH]; intros ed H; simpl; [exact H|].
  apply IH, linked_edit, H.
Qed.

Lemma redo_undo_linked (ed : Editor) :
  linked ed -> undoStack ed <> [] -> redo (undo ed) = ed.
Proof.
  destruct ed as [cur us rs]. unfold linked, undo, redo; simpl.
  intros [Hd _] Hne. destruct us as [|it us]; [congruence|].
  simpl in *. destruct Hd as [Ht _]. rewrite Ht. reflexivity.
Qed.

Lemma undo_redo_linked (ed : Editor) :
  linked ed -> redoStack ed <> [] -> undo (redo ed) = ed.
Proof.
  destruct ed as [cur us rs]. unfold linked, undo, redo; simpl.
  intros [_ Hu] Hne. destruct rs as [|it rs]; [congruence|].
  simpl in *. destruct Hu as [Hf _]. rewrite Hf. reflexivity.
Qed.

Lemma undo_stack_shrinks (ed : Editor) :
  undoStack ed <> [] ->
  S (List.length (undoStack (undo ed))) = List.length (undoStack ed).
Proof.
  unfold undo. destruct (undoStack ed) as [|it us] eqn:E; [congruence|].
  reflexivity.
Qed.

Lemma redos_undos_linked (k : nat) :
  forall ed, linked ed -> (k <= List.length (undoStack ed))%nat ->
  redos k (undos k ed) = ed.
Proof.
  induction k as [|k IH]; intros ed HL Hk; [reflexivity|].
  assert (Hne : undoStack ed <> []) by (destruct (undoStack ed); simpl in Hk; [lia | discriminate]).
  pose proof (undo_stack_shrinks ed Hne) as Hlen.
  assert (Hswap : forall n e, redos n (redo e) = redo (redos n e)).
  { induction n as [|n IHn]; intro e; simpl; [reflexivity | apply IHn]. }
  simpl. rewrite Hswap.
  rewrite IH by (try apply linked_undo; try assumption; lia).
  apply redo_undo_linked; assumption.
Qed.

(** X1.  In every state reached from two empty stacks by trims, undos and
    redos: an undo followed by a redo gives the state back whenever there
    was something to undo, a redo followed by an undo gives it back whenever
    there was something to redo, and [k] undos followed by [k] redos give it
    back for every [k] up to the height of the undo stack. *)
Theorem undo_redo_round_trip (r0 : TrimRange) (ops : list EditorOp) :
  (undoStack (edits ops (initial r0)) <> [] ->
   redo (undo (edits ops (initial r0))) = edits ops (initial r0))
  /\ (redoStack (edits ops (initial r0)) <> [] ->
      undo (redo (edits ops (initial r0))) = edits ops (initial r0))
  /\ (forall k, (k <= List.length (undoStack (edits ops (initial r0))))%nat ->
        redos k (undos k (edits ops (initial r0))) = edits ops (initial r0)).
Proof.
  pose proof (linked_edits ops _ (linked_initial r0)) as HL.
  repeat split.
  - apply redo_undo_linked, HL.
  - apply undo_redo_linked, HL.
  - intros k Hk. apply redos_undos_linked; assumption.
Qed.

Lemma timeline_undo (ed : Editor) : timeline (undo ed) = timeline ed.
Proof.
  unfold timeline, undo.
  destruct (undoStack ed) as [|it us] eqn:E; simpl; [rewrite E; reflexivity|].
  rewrite <- app_assoc. reflexivity.
Qed.

Lemma timeline_redo (ed : Editor) : timeline (redo ed) = timeline ed.
Proof.
  unfold timeline, redo.
  destruct (redoStack ed) as [|it rs] eqn:E; simpl; [rewrite E; reflexivity|].
  rewrite <- app_assoc. reflexivity.
Qed.

(** X2.  Undo and redo never lose or invent a history item: after any run
    of clicks on the two arrows the timeline (undo stack bottom to top, then
    redo stack top to bottom) is what it was, so the two stacks together
    hold as many items as before; a trim is what changes it, cutting the redo
    part and appending its own item. *)
Theorem undo_redo_keep_timeline (clicks : list bool) (ed : Editor) :
  timeline (edits (moves clicks) ed) = timeline ed
  /\ (List.length (undoStack (edits (moves clicks) ed))
      + List.length (redoStack (edits (moves clicks) ed))
      = List.length (undoStack ed) + List.length (redoStack ed))%nat
  /\ forall r,
       timeline (applyTrim r (edits (moves clicks) ed))
       = rev (undoStack (edits (moves clicks) ed))
           ++ [{| from := trimRange (edits (moves clicks) ed); to := r |}].
Proof.
  assert (T : timeline (edits (moves clicks) ed) = timeline ed).
  { revert ed. induction clicks as [|c cs IH]; intro ed; [reflexivity|].
    simpl. rewrite (IH (edit ed (if c then Undo else Redo))).
    destruct c; simpl; [apply timeline_undo | apply timeline_redo]. }
  split; [exact T|]. split.
  - apply (f_equal (@List.length _)) in T. unfold timeline in T.
    rewrite !length_app, !length_rev in T. exact T.
  - intro r. unfold timeline, applyTrim. simpl. rewrite app_nil_r. reflexivity.
Qed.

End HistoryFacts.

(** ** What trim-silence keeps and what it cuts *)
Module TrimBounds.
Import Js JsFacts Main.

Lemma leading_quiet (pcm : list Q) :
  forall k, (k < leading pcm)%nat -> quiet (nth k pcm 0) = true.
Proof.
  induction pcm as [|v r IH]; intros k Hk; simpl in Hk; [lia|].
  destruct (quiet v) eqn:E; [|lia].
  destruct k as [|k]; [exact E|]. simpl. apply IH. lia.
Qed.

Lemma leading_stops (pcm : list Q) :
  (leading pcm < List.length pcm)%nat -> quiet (nth (leading pcm) pcm 0) = false.
Proof.
  induction pcm as [|v r IH]; simpl; intro H; [lia|].
  destruct (quiet v) eqn:E; [|exact E].
  apply IH. lia.
Qed.

Lemma trailing_quiet (pcm : list Q) (j : nat) :
  forall k, (trailing pcm j < k <= j)%nat -> quiet (nth k pcm 0) = true.
Proof.
  induction j as [|j IH]; intros k Hk; simpl in Hk; [lia|].
  destruct (quiet (nth (S j) pcm 0)) eqn:E; [|lia].
  destruct (Nat.eq_dec k (S j)) as [->|]; [exact E|].
  apply IH. lia.
Qed.

Lemma trailing_stops (pcm : list Q) (j : nat) :
  (0 < trailing pcm j)%nat -> quiet (nth (trailing pcm j) pcm 0) = false.
Proof.
  induction j as [|j IH]; simpl; intro H; [lia|].
  destruct (quiet (nth (S j) pcm 0)) eqn:E; [|exact E].
  apply IH, H.
Qed.

(** X3.  The two loops of the trim-silence handler cut only quiet samples
    and stop at the first and last audible one: every sample before index
    [i] is below the threshold and the one at [i] (if any is left) is not;
    every sample after index [j] is below the threshold and the one at [j]
    is not, unless the loop ran down to [j = 0], where it stops without
    looking. *)
Theorem trimSilence_cuts_only_quiet (pcm : list Q) :
  (forall k, (k < leading pcm)%nat -> quiet (nth k pcm 0) = true)
  /\ ((leading pcm < List.length pcm)%nat ->
      quiet (nth (leading pcm) pcm 0) = false)
  /\ (forall k, (trailing pcm (List.length pcm - 1) < k < List.length pcm)%nat ->
        quiet (nth k pcm 0) = true)
  /\ ((0 < trailing pcm (List.length pcm - 1))%nat ->
      quiet (nth (trailing pcm (List.length pcm - 1)) pcm 0) = false)
  /\ (leading pcm <= List.length pcm)%nat
  /\ (trailing pcm (List.length pcm - 1) <= List.length pcm - 1)%nat.
Proof.
  repeat split.
  - apply leading_quiet.
  - apply leading_stops.
  - intros k Hk. apply (trailing_quiet pcm (List.length pcm - 1)). lia.
  - apply trailing_stops.
  - apply SilenceFacts.leading_bound.
  - apply SilenceFacts.trailing_le.
Qed.

End TrimBounds.

(** ** The ledger over a whole session *)
Module LedgerFacts.
Import Js JsFacts Main Ledger.

Lemma ordered_snoc (ps : list Exporter.PauseRange) (e : Exporter.PauseRange) :
  forall c, Exporter.ordered c ps ->
  Exporter.final_cursor c ps <= Exporter.startVideoTime e ->
  Exporter.ordered c (ps ++ [e])
  /\ Exporter.final_cursor c (ps ++ [e]) = Exporter.startVideoTime e.
Proof.
  induction ps as [|p ps IH]; intros c Ho Hc; simpl in *.
  - repeat split; auto.
  - destruct Ho as [H1 H2]. destruct (IH _ H2 Hc) as [H3 H4].
    repeat split; assumption.
Qed.

Lemma in_step_fresh : in_step fresh.
Proof. unfold in_step, lastPauseTime; simpl. repeat split; lra. Qed.

Lemma in_step_togglePause (now : Q) (frame : string) (s : Session) :
  in_step s -> in_step (togglePause now frame s).
Proof.
  unfold in_step, lastPauseTime, togglePause. intros (Ho & Hc & Ht).
  destruct (negb (isRecording s)); [tauto|].
  destruct (negb (paused s)); simpl.
  - repeat split; try assumption; lra.
  - destruct (lastPause s) as [lp|] eqn:E; [|tauto].
    destruct (ordered_snoc (pauses s)
                {| Exporter.startVideoTime := fst lp;
                   Exporter.pauseDuration :=
                     Math_max 0.01
                       (if truthy (pauseStartAt s)
                        then (now - match pauseStartAt s with
                                    | Some v => v | None => 0 end) / 1000
                        else 0.01);
                   Exporter.frameDataURL := snd lp |} 0 Ho Hc) as [H1 H2].
    repeat split; try assumption. rewrite H2. simpl. lra.
Qed.

Lemma in_step_handle (e : Event) (s : Session) :
  steady (currentTime s) [e] -> in_step s -> in_step (handle s e).
Proof.
  intros Hs H. destruct e; simpl.
  - apply in_step_togglePause, H.
  - destruct (isRecording s); exact H.
  - exact H.
  - destruct (isRecording s); exact H.
  - destruct (isRecording s); exact H.
  - unfold in_step, lastPauseTime in *; simpl in *.
    destruct H as (Ho & Hc & Ht). repeat split; try assumption. lra.
  - exact H.
Qed.

Lemma currentTime_handle (e : Event) (s : Session) :
  currentTime (handle s e)
  = match e with Playback t => t | _ => currentTime s end.
Proof.
  destruct e; simpl; try reflexivity.
  - unfold togglePause.
    destruct (negb (isRecording s)); [reflexivity|].
    destruct (negb (paused s)); reflexivity.
  - destruct (isRecording s); reflexivity.
  - destruct (isRecording s); reflexivity.
  - destruct (isRecording s); reflexivity.
Qed.

Lemma in_step_session (events : list Event) :
  forall s, steady (currentTime s) events -> in_step s ->
  in_step (session events s).
Proof.
  induction events as [|e es IH]; intros s Hs H; simpl; [exact H|].
  apply IH.
  - rewrite currentTime_handle. destruct e; simpl in Hs; tauto.
  - apply in_step_handle; [|exact H]. destruct e; simpl in *; tauto.
Qed.

(** X4.  If playback never seeks backwards, then whatever else happens
    (toggles, pause and play events in any order, recording stopped and
    restarted, the element paused by other means) the start times in the
    ledger begin at or after 0 and never decrease, and the last one is at or
    before the playback position: the ordering the planning sweep relies on. *)
Theorem ledger_ordered_without_seek (events : list Event) :
  steady 0 events ->
  Exporter.ordered 0 (pauses (session events fresh))
  /\ Exporter.final_cursor 0 (pauses (session events fresh))
     <= currentTime (session events fresh).
Proof.
  intro Hs.
  destruct (in_step_session events fresh Hs in_step_fresh) as (Ho & Hc & Ht).
  split; [exact Ho | lra].
Qed.

Lemma ledger_ordered_without_seek_witness :
  Exporter.ordered 0 (pauses (session three_pauses fresh))
  /\ Exporter.final_cursor 0 (pauses (session three_pauses fresh))
     <= currentTime (session three_pauses fresh).
Proof.
  apply (ledger_ordered_without_seek three_pauses).
  simpl. repeat split; lra.
Defined.

Lemma pauses_handle_grows (e : Event) (s : Session) :
  exists added, pauses (handle s e) = pauses s ++ added
                /\ (List.length added <= 1)%nat.
Proof.
  destruct e; simpl; unfold togglePause;
    repeat match goal with
           | |- context [if ?b then _ else _] => destruct b
           end; simpl;
    try destruct (lastPause s);
    first [ exists []; rewrite app_nil_r; split; [reflexivity | simpl; lia]
          | eexists; split; [reflexivity | simpl; lia] ].
Qed.

(** X5.  The ledger is append-only: after any further events the earlier
    ledger is still there, unchanged and in place, as a prefix; each event
    adds at most one entry, so the ledger grows by no more than the number of
    events, and only a pause toggle adds one. *)
Theorem ledger_append_only (events : list Event) (s : Session) :
  exists added,
    pauses (session events s) = pauses s ++ added
    /\ (List.length added <= List.length events)%nat
    /\ (Forall (fun e => match e with TogglePause _ _ => False | _ => True end)
               events -> added = []).
Proof.
  revert s. induction events as [|e es IH]; intro s; simpl.
  - exists []. rewrite app_nil_r. repeat split; auto.
  - destruct (pauses_handle_grows e s) as (a1 & E1 & L1).
    destruct (IH (handle s e)) as (a2 & E2 & L2 & N2).
    exists (a1 ++ a2). rewrite E2, E1, app_assoc. repeat split.
    + rewrite length_app. lia.
    + intro HF. inversion HF as [|? ? He Hes]; subst.
      rewrite (N2 Hes), app_nil_r.
      destruct e; try contradiction; simpl in E1;
        try (destruct (isRecording s));
        apply (f_equal (@List.length _)) in E1;
        rewrite length_app in E1;
        destruct a1; simpl in *; try reflexivity; lia.
Qed.

(** X6.  One pause and resume while recording and playing, with the
    element's pause event delivered in between at a clock reading other than
    0, commits exactly one entry: the video time and the frame are those of
    the moment of the pause, the duration is the time from the pause event to
    the resume in seconds, or 0.01 if that is less.  If instead the pause
    event has not been delivered since the last play event, the entry's
    duration is the 0.01 floor. *)
Theorem pause_resume_commits_one (now1 now2 t0 : Q) (f1 f2 : string)
    (s : Session) :
  isRecording s = true -> paused s = false -> ~ t0 == 0 ->
  pauses (togglePause now2 f2 (handle (togglePause now1 f1 s) (OnPause t0)))
    = pauses s
      ++ [{| Exporter.startVideoTime := currentTime s;
             Exporter.pauseDuration := Math_max 0.01 ((now2 - t0) / 1000);
             Exporter.frameDataURL := f1 |}]
  /\ pauses (togglePause now2 f2 (togglePause now1 f1 (handle s OnPlay)))
     = pauses s
       ++ [{| Exporter.startVideoTime := currentTime s;
              Exporter.pauseDuration := Math_max 0.01 0.01;
              Exporter.frameDataURL := f1 |}].
Proof.
  intros Hr Hp Ht.
  assert (E : Qeq_bool t0 0 = false).
  { destruct (Qeq_bool t0 0) eqn:E; [|reflexivity].
    apply Qeq_bool_iff in E. contradiction. }
  destruct s as [rec_ pa ct lp ps0 ps]. simpl in Hr, Hp. subst rec_ pa.
  unfold togglePause, handle; simpl. rewrite E. simpl.
  split; reflexivity.
Qed.

Lemma pause_resume_commits_one_witness :
  pauses (togglePause 8301 "g"
            (handle (togglePause 5000 "f"
                       (session [StartRecording; Playback 12] fresh))
                    (OnPause 5001)))
    = pauses (session [StartRecording; Playback 12] fresh)
      ++ [{| Exporter.startVideoTime :=
               currentTime (session [StartRecording; Playback 12] fresh);
             Exporter.pauseDuration := Math_max 0.01 ((8301 - 5001) / 1000);
             Exporter.frameDataURL := "f" |}]
  /\ pauses (togglePause 8301 "g"
               (togglePause 5000 "f"
                  (handle (session [StartRecording; Playback 12] fresh) OnPlay)))
     = pauses (session [StartRecording; Playback 12] fresh)
       ++ [{| Exporter.startVideoTime :=
                currentTime (session [StartRecording; Playback 12] fresh);
              Exporter.pauseDuration := Math_max 0.01 0.01;
              Exporter.frameDataURL := "f" |}].
Proof.
  apply (pause_resume_commits_one 5000 8301 5001 "f" "g"
           (session [StartRecording; Playback 12] fresh)).
  - reflexivity.
  - reflexivity.
  - intro H. discriminate H.
Defined.

End LedgerFacts.

(** ** The plan's shape and the files of an export *)
Module StagingFacts.
Import Js JsFacts Exporter Cli.

Local Open Scope string_scope.

Lemma append_length (a b : string) :
  String.length (a ++ b) = (String.length a + String.length b)%nat.
Proof. induction a as [|c a IH]; simpl; [|rewrite IH]; reflexivity. Qed.

Lemma append_cancel_r (t : string) :
  forall a b, a ++ t = b ++ t -> a = b.
Proof.
  induction a as [|c a IH]; intros [|d b] H.
  - reflexivity.
  - apply (f_equal String.length) in H. simpl in H.
    rewrite append_length in H. lia.
  - apply (f_equal String.length) in H. simpl in H.
    rewrite append_length in H. lia.
  - simpl in H. injection H as -> H. f_equal. apply IH, H.
Qed.

Lemma decimal_inj (a b : N) : decimal a = decimal b -> a = b.
Proof.
  intro H. apply (f_equal NilZero.uint_of_string) in H. unfold decimal in H.
  rewrite !NilZero.usu in H by apply RenderFacts.to_uint_nonnil.
  injection H as H. apply DecimalN.Unsigned.to_uint_inj, H.
Qed.

Lemma seg_name_inj (n m : nat) : seg_name n = seg_name m -> n = m.
Proof.
  unfold seg_name. intro H. simpl in H. injection H as H.
  apply append_cancel_r, decimal_inj in H. lia.
Qed.

Lemma NoDup_map_injective {A B} (f : A -> B) (l : list A) :
  (forall x y, f x = f y -> x = y) -> NoDup l -> NoDup (map f l).
Proof.
  intros Hf H. induction H as [|a l Hn _ IH]; simpl; constructor; [|exact IH].
  intro Hin. apply in_map_iff in Hin. destruct Hin as (b & E & Hb).
  apply Hf in E. subst b. exact (Hn Hb).
Qed.

(** The sweep numbers its outputs consecutively from the index it starts
    with, and a freeze's still carries the number of its clip. *)
Lemma sweep_indices (ps : list PauseRange) :
  forall c idx,
    map out_index (sweep c idx ps) = seq idx (List.length (sweep c idx ps))
    /\ Forall (fun s => match s with Freeze k _ _ n => k = n | _ => True end)
              (sweep c idx ps).
Proof.
  induction ps as [|p ps IH]; intros c idx; simpl.
  - split; [reflexivity | repeat constructor].
  - destruct (gt (startVideoTime p) (c + eps)); simpl.
    + destruct (IH (startVideoTime p) (S (S idx))) as [H1 H2].
      rewrite H1. split; [reflexivity | repeat constructor; exact H2].
    + destruct (IH (startVideoTime p) (S idx)) as [H1 H2].
      rewrite H1. split; [reflexivity | repeat constructor; exact H2].
Qed.

(** X7.  The clips of a plan are numbered 0, 1, 2, ... in plan order, so no
    two steps write the same [seg_n.mp4], and each freeze's still
    [still_k.png] has the number of the clip made from it: no file of one
    step is overwritten by another. *)
Theorem plan_names_distinct (pauses : list PauseRange) :
  map out_index (plan pauses) = seq 0 (List.length (plan pauses))
  /\ NoDup (map out_name (plan pauses))
  /\ Forall (fun s => match s with Freeze k _ _ n => k = n | _ => True end)
            (plan pauses).
Proof.
  destruct (sweep_indices pauses 0 0%nat) as [H1 H2]. fold (plan pauses) in H1, H2.
  split; [exact H1|]. split; [|exact H2].
  assert (E : map out_name (plan pauses) = map seg_name (map out_index (plan pauses))).
  { rewrite map_map. apply map_ext. intros []; reflexivity. }
  rewrite E, H1.
  apply NoDup_map_injective; [exact seg_name_inj | apply seq_NoDup].
Qed.

Lemma sweep_shape (total : Q) (ps : list PauseRange) :
  forall c idx,
    (List.length (sweep c idx ps) + List.length (elided c ps)
     = 2 * List.length ps + 1)%nat
    /\ (List.length (real_ranges total (sweep c idx ps)) + List.length (elided c ps)
        = List.length ps + 1)%nat
    /\ exists init,
         sweep c idx ps
         = (init ++ [CopyTail (final_cursor c ps) (idx + List.length init)])%list
         /\ Forall (fun s => match s with CopyTail _ _ => False | _ => True end) init.
Proof.
  induction ps as [|p ps IH]; intros c idx; simpl.
  - split; [reflexivity|]. split; [reflexivity|].
    exists []. simpl. rewrite Nat.add_0_r. split; [reflexivity | constructor].
  - destruct (gt (startVideoTime p) (c + eps)); simpl.
    + destruct (IH (startVideoTime p) (S (S idx))) as (H1 & H2 & init & H3 & H4).
      split; [lia|]. split; [lia|].
      exists (CopyRange c (startVideoTime p) idx
              :: Freeze (S idx) (frameDataURL p) (pauseDuration p) (S idx) :: init).
      rewrite H3. simpl. split.
      * replace (idx + S (S (List.length init)))%nat
          with (S (S (idx + List.length init))) by lia. reflexivity.
      * repeat constructor. exact H4.
    + destruct (IH (startVideoTime p) (S idx)) as (H1 & H2 & init & H3 & H4).
      split; [lia|]. split; [lia|].
      exists (Freeze idx (frameDataURL p) (pauseDuration p) idx :: init).
      rewrite H3. simpl. split.
      * replace (idx + S (List.length init))%nat
          with (S (idx + List.length init)) by lia. reflexivity.
      * repeat constructor. exact H4.
Qed.

Lemma elided_length (ps : list PauseRange) :
  forall c, (List.length (elided c ps) <= List.length ps)%nat.
Proof.
  induction ps as [|p ps IH]; intro c; simpl; [lia|].
  destruct (gt (startVideoTime p) (c + eps)); simpl;
    specialize (IH (startVideoTime p)); lia.
Qed.

(** X8.  Every plan ends with the tail copy, from the last pause's start
    (0 without pauses), whatever its length, and holds no other tail; each
    pause gives one freeze and one candidate range that is either copied or
    skipped, so the plan has two steps per pause plus the tail, less the
    skipped candidates, and between [pauses + 1] and [2 * pauses + 1] steps. *)
Theorem plan_shape (pauses : list PauseRange) (totalDuration : Q) :
  (List.length (plan pauses) + List.length (elided 0 pauses)
   = 2 * List.length pauses + 1)%nat
  /\ (List.length (real_ranges totalDuration (plan pauses))
      + List.length (elided 0 pauses)
      = List.length pauses + 1)%nat
  /\ (List.length pauses + 1 <= List.length (plan pauses)
      <= 2 * List.length pauses + 1)%nat
  /\ exists init,
       plan pauses
       = (init ++ [CopyTail (final_cursor 0 pauses) (List.length init)])%list
       /\ Forall (fun s => match s with CopyTail _ _ => False | _ => True end) init.
Proof.
  destruct (sweep_shape totalDuration pauses 0 0%nat) as (H1 & H2 & H3).
  fold (plan pauses) in H1, H2, H3.
  pose proof (elided_length pauses 0) as HE.
  split; [exact H1|]. split; [exact H2|]. split; [lia | exact H3].
Qed.

Lemma nearest_milli_step (x y : Q) :
  x + (1 # 1000) < y -> (nearest_milli x + 1 <= nearest_milli y)%Z.
Proof.
  intro H. unfold nearest_milli.
  pose proof (Qfloor_le (x * 1000 + (1 # 2))) as Lx.
  pose proof (Qlt_floor (y * 1000 + (1 # 2))) as Uy.
  set (nx := Qfloor (x * 1000 + (1 # 2))) in *.
  set (ny := Qfloor (y * 1000 + (1 # 2))) in *.
  destruct (Z.le_gt_cases (nx + 1) ny) as [L | G]; [exact L|].
  exfalso. assert (G' : (ny + 1 <= nx + 1)%Z) by lia.
  rewrite Zle_Qle in G'. rewrite !inject_Z_plus in G'.
  rewrite inject_Z_plus in Uy. change (inject_Z 1) with 1 in *. lra.
Qed.

Lemma nearest_milli_small (x : Q) : 0 <= x -> (0 <= nearest_milli x)%Z.
Proof. apply RenderFacts.nearest_milli_nonneg. Qed.

Lemma thousandths_le (n m : Z) : (n + 1 <= m)%Z -> (n # 1000) + (1 # 1000) <= m # 1000.
Proof.
  intro H. unfold Qle, Qplus; simpl. lia.
Qed.

(** Ends more than a thousandth apart stay at least a thousandth apart
    when rendered. *)
Lemma quantize_step (x y : Q) :
  x + (1 # 1000) < y -> quantize x + (1 # 1000) <= quantize y.
Proof.
  intro H. unfold quantize.
  destruct (lt x 0) eqn:Sx; destruct (lt y 0) eqn:Sy.
  - apply lt_true in Sx, Sy.
    apply thousandths_le.
    pose proof (nearest_milli_step (- y) (- x) ltac:(lra)). lia.
  - apply lt_true in Sx. apply lt_false in Sy.
    apply thousandths_le.
    pose proof (nearest_milli_small y Sy) as Ny.
    pose proof (nearest_milli_small (- x) ltac:(lra)) as Nx.
    destruct (Z.eq_dec (nearest_milli y) 0) as [Ey|]; [|lia].
    destruct (Z.eq_dec (nearest_milli (- x)) 0) as [Ex|]; [|lia].
    exfalso.
    pose proof (Qlt_floor (y * 1000 + (1 # 2))) as Uy.
    pose proof (Qlt_floor (- x * 1000 + (1 # 2))) as Ux.
    unfold nearest_milli in Ey, Ex. rewrite Ey in Uy. rewrite Ex in Ux.
    change (inject_Z (0 + 1)) with 1 in Uy, Ux. lra.
  - apply lt_false in Sx. apply lt_true in Sy. lra.
  - apply thousandths_le, nearest_milli_step, H.
Qed.

Lemma sweep_separated (ps : list PauseRange) :
  forall c idx, Forall well_separated (sweep c idx ps).
Proof.
  induction ps as [|p ps IH]; intros c idx; simpl.
  - repeat constructor.
  - destruct (gt (startVideoTime p) (c + eps)) eqn:G; simpl.
    + apply gt_true in G. constructor; [|constructor; [exact I | apply IH]].
      split; [exact G | apply quantize_step; exact G].
    + constructor; [exact I | apply IH].
Qed.

(** X9.  Every copied segment of a plan, for any ledger at all, has its end
    more than 0.001 s after its start, and the two values as [toFixed(3)]
    renders them are still at least 0.001 apart: the guard of the loop is
    what keeps a [-ss]/[-to] pair from collapsing to an empty or reversed
    range after rounding to thousandths. *)
Theorem copied_segments_stay_apart (pauses : list PauseRange) :
  Forall well_separated (plan pauses).
Proof. apply sweep_separated. Qed.

End StagingFacts.

(** ** What an export reads and writes in the engine's storage *)
Module DataflowFacts.
Import Js JsFacts Exporter Cli.

Local Open Scope string_scope.

Lemma present_head (x : string) (files : list string) :
  present x (x :: files) = true.
Proof. unfold present; simpl. rewrite String.eqb_refl. reflexivity. Qed.

Lemma present_tail (x y : string) (files : list string) :
  present x files = true -> present x (y :: files) = true.
Proof. unfold present; simpl. intros ->. apply orb_true_r. Qed.

Lemma present_app_r (x : string) (more files : list string) :
  present x files = true -> present x (more ++ files) = true.
Proof.
  intro H. induction more as [|m more IH]; [exact H|].
  simpl. apply present_tail, IH.
Qed.

Lemma stage_app (a b : list EngineOp) :
  forall files,
    stage files (a ++ b)
    = match stage files a with
      | Some files' => stage files' b
      | None => None
      end.
Proof.
  induction a as [|op a IH]; intro files; [reflexivity|].
  destruct op as [| name data | args | name]; simpl.
  - apply IH.
  - apply IH.
  - destruct (forallb (fun i => present i files) (inputs args)); [apply IH | reflexivity].
  - destruct (present name files); [apply IH | reflexivity].
Qed.

Section Dataflow.

Variable Number_toString : Q -> string.

Lemma produced_run_step (s : Step) :
  produced (run_step Number_toString s) = [out_name s].
Proof. destruct s; reflexivity. Qed.

(** One step against a storage that holds the video: it succeeds and
    leaves its clip (and, for a freeze, its still) behind. *)
Lemma stage_run_step (s : Step) (files : list string) :
  present "input.mp4" files = true ->
  exists files',
    stage files (run_step Number_toString s) = Some files'
    /\ present (out_name s) files' = true
    /\ forall x, present x files = true -> present x files' = true.
Proof.
  intro Hin. destruct s as [a b n | k frame d n | a n].
  - exists (seg_name n :: files).
    change (stage files (run_step Number_toString (CopyRange a b n)))
      with (if forallb (fun i => present i files) ["input.mp4"]
            then Some (seg_name n :: files) else None).
    cbn [forallb]. rewrite Hin. cbn [andb].
    repeat split; [apply present_head | intros x Hx; apply present_tail, Hx].
  - exists (seg_name n :: still_name k :: files).
    change (stage files (run_step Number_toString (Freeze k frame d n)))
      with (if forallb (fun i => present i (still_name k :: files)) [still_name k]
            then Some (seg_name n :: still_name k :: files) else None).
    cbn [forallb]. rewrite present_head. cbn [andb].
    repeat split; [apply present_head
                  | intros x Hx; apply present_tail, present_tail, Hx].
  - exists (seg_name n :: files).
    change (stage files (run_step Number_toString (CopyTail a n)))
      with (if forallb (fun i => present i files) ["input.mp4"]
            then Some (seg_name n :: files) else None).
    cbn [forallb]. rewrite Hin. cbn [andb].
    repeat split; [apply present_head | intros x Hx; apply present_tail, Hx].
Qed.

Lemma stage_run_steps (steps : list Step) :
  forall files, present "input.mp4" files = true ->
  exists files',
    stage files (flat_map (run_step Number_toString) steps) = Some files'
    /\ Forall (fun s => present (out_name s) files' = true) steps
    /\ forall x, present x files = true -> present x files' = true.
Proof.
  induction steps as [|s steps IH]; intros files Hin.
  - exists files. repeat split; auto.
  - destruct (stage_run_step s files Hin) as (f1 & S1 & O1 & K1).
    destruct (IH f1 (K1 _ Hin)) as (f2 & S2 & O2 & K2).
    exists f2. simpl flat_map. rewrite stage_app, S1, S2.
    repeat split.
    + constructor; [apply K2, O1 | exact O2].
    + intros x Hx. apply K2, K1, Hx.
Qed.

Lemma produced_run_steps (steps : list Step) :
  produced (flat_map (run_step Number_toString) steps) = map out_name steps.
Proof.
  induction steps as [|s steps IH]; [reflexivity|].
  simpl flat_map. unfold produced in *. rewrite flat_map_app.
  fold (produced (run_step Number_toString s)).
  rewrite produced_run_step, IH. reflexivity.
Qed.

(** X10.  An export that acquires the engine never has it read a file that
    is not there: run against an empty storage, every [-i] input of every
    call and the final [readFile] find their file written or produced by an
    earlier call, and [output.mp4] exists at the end.  The clips named in
    [list.txt] are the outputs of the step calls, in the same order, and all
    of them exist when the concat call runs. *)
Theorem export_reads_only_staged (ffmpeg libraryLoaded : bool)
    (pauses : list PauseRange) (normalize : bool) (ops : list EngineOp) :
  export Number_toString ffmpeg libraryLoaded pauses normalize = Some ops ->
  (exists files,
     stage [] ops = Some files
     /\ present "output.mp4" files = true
     /\ Forall (fun s => present (out_name s) files = true) (plan pauses))
  /\ produced (flat_map (run_step Number_toString) (plan pauses))
     = map out_name (plan pauses)
  /\ concatTxt (plan pauses)
     = String.concat newline
         (map (fun name => "file '" ++ name ++ "'")
              (produced (flat_map (run_step Number_toString) (plan pauses)))).
Proof.
  intro H. split; [|split].
  - unfold export, ensureFFmpeg in H.
    assert (In2 : present "input.mp4" ["voice.m4a"; "input.mp4"] = true)
      by reflexivity.
    destruct (stage_run_steps (plan pauses) _ In2) as (f & Sf & Of & Kf).
    assert (V : present "voice.m4a" f = true) by (apply Kf; reflexivity).
    exists ("output.mp4" :: "voice.aac" :: "video_full.mp4" :: "list.txt" :: f).
    assert (Tail : forall acquire, (acquire = [] \/ acquire = [Load]) ->
      stage [] (acquire
                ++ [WriteFile "input.mp4" VideoBlob; WriteFile "voice.m4a" AudioBlob]
                ++ flat_map (run_step Number_toString) (plan pauses)
                ++ [WriteFile "list.txt" (Text (concatTxt (plan pauses)));
                    Run ["-f"; "concat"; "-safe"; "0"; "-i"; "list.txt"; "-c";
                         "copy"; "video_full.mp4"];
                    Run (["-i"; "voice.m4a"]
                         ++ (if normalize
                             then ["-af"; "loudnorm=I=-16:TP=-1.5:LRA=11"]
                             else [])
                         ++ ["-c:a"; "aac"; "-b:a"; "192k"; "voice.aac"]);
                    Run ["-i"; "video_full.mp4"; "-i"; "voice.aac"; "-map";
                         "0:v:0"; "-map"; "1:a:0"; "-c:v"; "copy"; "-shortest";
                         "output.mp4"];
                    ReadFile "output.mp4"])%list
      = Some ("output.mp4" :: "voice.aac" :: "video_full.mp4" :: "list.txt" :: f)).
    { intros acquire Ha.
      rewrite stage_app.
      replace (stage [] acquire) with (Some (@nil string))
        by (destruct Ha as [-> | ->]; reflexivity).
      change (stage [] ([WriteFile "input.mp4" VideoBlob;
                         WriteFile "voice.m4a" AudioBlob] ++ ?r)%list)
        with (stage ["voice.m4a"; "input.mp4"] r).
      rewrite stage_app, Sf.
      destruct normalize; simpl; rewrite V; reflexivity. }
    split; [|split].
    + destruct ffmpeg; [|destruct libraryLoaded; [|discriminate H]];
        cbv beta iota in H;
        apply (f_equal (fun o => match o with Some x => x | None => [] end)) in H;
        cbv beta iota in H; subst ops; apply Tail; auto.
    + reflexivity.
    + apply Forall_forall. intros s Hs. rewrite Forall_forall in Of.
      do 4 apply present_tail. apply Of, Hs.
  - apply produced_run_steps.
  - rewrite produced_run_steps, map_map. reflexivity.
Qed.

End Dataflow.

Lemma export_reads_only_staged_witness :
  exists ops,
    export (fun _ => "") false true two_pauses true = Some ops
    /\ ((exists files,
           stage [] ops = Some files
           /\ present "output.mp4" files = true
           /\ Forall (fun s => present (out_name s) files = true) (plan two_pauses))
        /\ produced (flat_map (run_step (fun _ => "")) (plan two_pauses))
           = map out_name (plan two_pauses)
        /\ concatTxt (plan two_pauses)
           = String.concat newline
               (map (fun name => "file '" ++ name ++ "'")
                    (produced (flat_map (run_step (fun _ => "")) (plan two_pauses))))).
Proof.
  eexists. split; [reflexivity|].
  apply (export_reads_only_staged (fun _ => "") false true two_pauses true).
  reflexivity.
Defined.

(** A call that reads a clip no step produced is caught. *)
Example stage_missing_input :
  stage [] [WriteFile "input.mp4" VideoBlob;
            Run ["-f"; "concat"; "-safe"; "0"; "-i"; "list.txt"; "-c"; "copy";
                 "video_full.mp4"]] = None.
Proof. reflexivity. Qed.

End DataflowFacts.

(** ** [doExport]: what an attempt does around the engine *)
Module AttemptFacts.
Import Js JsFacts Main.

Lemma floor_of_nat (n : nat) : Qfloor (of_nat n) = Z.of_nat n.
Proof. unfold of_nat. apply Qfloor_Z. Qed.

Lemma fraction_times (a n : nat) :
  (0 < n)%nat -> of_nat a / of_nat n * of_nat n == of_nat a.
Proof.
  intro Hn. pose proof (SilenceFacts.of_nat_pos n Hn) as P.
  field. intro E. rewrite E in P. apply (Qlt_irrefl 0), P.
Qed.

Section Attempt.

Variable Number_toString : Q -> string.


(** X12.  With a trim range in order ([0 <= start <= end <= 1]) the sample
    positions handed to the offline render are in order and within the
    buffer: [0 <= first <= last <= length]. *)
Theorem doExport_slice_within_buffer (pg : Page) (pcm : list Q) :
  audioBlob pg = true ->
  audioPCM pg = Some pcm ->
  range_ok (pageTrim pg) ->
  exists first last,
    In (RenderTrimmed first last) (doExport Number_toString pg)
    /\ (0 <= first <= last)%Z /\ (last <= Z.of_nat (List.length pcm))%Z.
Proof.
  intros Ha Hp (H0 & Hse & H1).
  exists (Qfloor (start (pageTrim pg) * of_nat (List.length pcm))),
         (Qfloor (end_ (pageTrim pg) * of_nat (List.length pcm))).
  assert (L : 0 <= of_nat (List.length pcm)).
  { change 0 with (of_nat 0). apply SilenceFacts.of_nat_le. lia. }
  split; [|split; [split|]].
  - unfold doExport. rewrite Ha, Hp. simpl. right. left. reflexivity.
  - change 0%Z with (Qfloor 0). apply Qfloor_resp_le.
    apply Qmult_le_0_compat; assumption.
  - apply Qfloor_resp_le. apply Qmult_le_compat_r; assumption.
  - rewrite <- floor_of_nat. apply Qfloor_resp_le.
    rewrite <- (Qmult_1_l (of_nat (List.length pcm))) at 2.
    apply Qmult_le_compat_r; assumption.
Qed.

(** X13.  After trim-silence on a buffer of two or more samples that are
    all below the threshold, an export asks the offline render for the
    samples from [length] to at most 1: a slice of negative length. *)
Theorem doExport_after_silent_trim (pg : Page) (pcm : list Q) :
  audioBlob pg = true ->
  audioPCM pg = Some pcm ->
  (2 <= List.length pcm)%nat ->
  Forall (fun v => quiet v = true) pcm ->
  pageTrim pg = trimRange (trimSilence (Some pcm) (initial {| start := 0; end_ := 1 |})) ->
  exists last,
    In (RenderTrimmed (Z.of_nat (List.length pcm)) last) (doExport Number_toString pg)
    /\ (last <= 1)%Z /\ (last - Z.of_nat (List.length pcm) < 0)%Z.
Proof.
  intros Ha Hp Hlen Hq Ht.
  exists (Qfloor (end_ (pageTrim pg) * of_nat (List.length pcm))).
  assert (S1 : Qfloor (start (pageTrim pg) * of_nat (List.length pcm))
               = Z.of_nat (List.length pcm)).
  { rewrite Ht. unfold trimSilence, applyTrim, silenceRange.
    cbn [trimRange start end_].
    rewrite (SilenceFacts.leading_all_quiet pcm Hq).
    rewrite (Qfloor_comp _ _
               (fraction_times (List.length pcm) (List.length pcm) ltac:(lia))).
    apply floor_of_nat. }
  assert (E1 : Qfloor (end_ (pageTrim pg) * of_nat (List.length pcm)) = 1%Z).
  { rewrite Ht. unfold trimSilence, applyTrim, silenceRange.
    cbn [trimRange start end_].
    rewrite (SilenceFacts.trailing_all_quiet pcm Hq) by lia.
    rewrite (Qfloor_comp _ _
               (fraction_times (0 + 1) (List.length pcm) ltac:(lia))).
    apply (floor_of_nat 1). }
  split; [|rewrite E1; lia].
  unfold doExport. rewrite Ha, Hp. rewrite <- S1. simpl. right. left. reflexivity.
Qed.

End Attempt.


Lemma doExport_slice_within_buffer_witness :
  exists first last,
    In (RenderTrimmed first last)
       (doExport (fun _ => ""%string)
          {| audioBlob := true; audioPCM := Some Samples.heard;
             pageTrim := silenceRange Samples.heard;
             pagePauses := []; normalize := false; libraryLoaded := true |})
    /\ (0 <= first <= last)%Z /\ (last <= Z.of_nat (List.length Samples.heard))%Z.
Proof.
  apply (doExport_slice_within_buffer (fun _ => ""%string)
           {| audioBlob := true; audioPCM := Some Samples.heard;
              pageTrim := silenceRange Samples.heard;
              pagePauses := []; normalize := false; libraryLoaded := true |}).
  - reflexivity.
  - reflexivity.
  - unfold range_ok; simpl. repeat split; vm_compute; discriminate.
Defined.

Lemma doExport_after_silent_trim_witness :
  exists last,
    In (RenderTrimmed (Z.of_nat (List.length Samples.hushed))%Z last)
       (doExport (fun _ => ""%string)
          {| audioBlob := true; audioPCM := Some Samples.hushed;
             pageTrim := silenceRange Samples.hushed;
             pagePauses := []; normalize := false; libraryLoaded := true |})
    /\ (last <= 1)%Z /\ (last - Z.of_nat (List.length Samples.hushed) < 0)%Z.
Proof.
  apply (doExport_after_silent_trim (fun _ => ""%string)
           {| audioBlob := true; audioPCM := Some Samples.hushed;
              pageTrim := silenceRange Samples.hushed;
              pagePauses := []; normalize := false; libraryLoaded := true |}).
  - reflexivity.
  - reflexivity.
  - simpl. lia.
  - repeat constructor.
  - reflexivity.
Defined.

End AttemptFacts.

(** ** What the waveform shows *)
Module CanvasFacts.
Import Js JsFacts Waveform Canvas.

Lemma firstn_incl {A} (n : nat) :
  forall (l : list A) v, In v (firstn n l) -> In v l.
Proof.
  induction n as [|n IH]; intros [|a l] v H; simpl in *; try contradiction.
  destruct H as [-> | H]; [left; reflexivity | right; apply IH, H].
Qed.

Lemma skipn_incl {A} (n : nat) :
  forall (l : list A) v, In v (skipn n l) -> In v l.
Proof.
  induction n as [|n IH]; intros [|a l] v H; simpl in *; try assumption.
  right. apply IH, H.
Qed.

Lemma window_incl (float32 : list Q) (width x : nat) (v : Q) :
  In v (window float32 width x) -> In v float32.
Proof.
  unfold window. intro H.
  apply (skipn_incl (x * step_of (List.length float32) width)).
  apply (firstn_incl _ _ _ H).
Qed.

Lemma column_nominal (float32 : list Q) (width x : nat) :
  Forall nominal float32 ->
  nominal (fst (column float32 width x)) /\ nominal (snd (column float32 width x)).
Proof.
  intro HF. rewrite Forall_forall in HF. rewrite WaveformFacts.column_fold.
  destruct (WaveformFacts.widen_fold_bounds (window float32 width x) 1 (-1))
    as (_ & _ & _ & H4 & H5).
  split.
  - destruct H4 as [-> | H4]; [unfold nominal; lra|].
    apply HF, (window_incl _ _ _ _ H4).
  - destruct H5 as [-> | H5]; [unfold nominal; lra|].
    apply HF, (window_incl _ _ _ _ H5).
Qed.

Lemma band_of_nominal (m height : Q) :
  0 <= height -> nominal m ->
  0.05 * height <= (1 - (m * 0.9 + 1) / 2) * height
  /\ (1 - (m * 0.9 + 1) / 2) * height <= 0.95 * height.
Proof.
  intros Hh [L U].
  assert (E : (m * 0.9 + 1) / 2 == (m * 0.9 + 1) * (1 # 2)) by reflexivity.
  split; apply Qmult_le_compat_r; try exact Hh; rewrite E; lra.
Qed.

Lemma column_centre (width x : nat) :
  (x < width)%nat ->
  0 < inject_Z (Z.of_nat x) + 0.5
  /\ inject_Z (Z.of_nat x) + 0.5 < Main.of_nat width.
Proof.
  intro H. unfold Main.of_nat.
  assert (A : 0 <= inject_Z (Z.of_nat x)).
  { change 0 with (inject_Z 0). rewrite <- Zle_Qle. lia. }
  assert (B : inject_Z (Z.of_nat x) + 1 <= inject_Z (Z.of_nat width)).
  { change 1 with (inject_Z 1). rewrite <- inject_Z_plus, <- Zle_Qle. lia. }
  split; lra.
Qed.

(** X14.  On a canvas of non-negative height and a buffer of amplitudes
    within [-1, 1], [drawFromPCM] issues one clear, one begin-path, a
    move-to and a line-to per column and one stroke, and every point it
    draws lies at the middle of one of the [width] columns, between 5% and
    95% of the height: nothing is drawn off the canvas. *)
Theorem drawFromPCM_stays_in_band (float32 : list Q) (width : nat) (height : Q) :
  0 <= height ->
  Forall nominal float32 ->
  List.length (drawFromPCM float32 width height) = (2 * width + 3)%nat
  /\ Forall (in_band width height) (drawFromPCM float32 width height).
Proof.
  intros Hh HF. unfold drawFromPCM. split.
  - simpl. rewrite length_app. simpl.
    assert (L : forall n s,
      List.length
        (flat_map
           (fun x : nat =>
              let '(mn, mx) := column float32 width x in
              let y1 := (1 - (mn * 0.9 + 1) / 2) * height in
              let y2 := (1 - (mx * 0.9 + 1) / 2) * height in
              let cx := inject_Z (Z.of_nat x) + 0.5 in
              [MoveTo cx y1; LineTo cx y2]) (seq s n)) = (2 * n)%nat).
    { induction n as [|n IH]; intro s; [reflexivity|].
      simpl seq. simpl flat_map. rewrite length_app, IH.
      destruct (column float32 width s). simpl. lia. }
    rewrite L. lia.
  - constructor; [exact I|]. constructor; [exact I|].
    apply Forall_app. split; [|repeat constructor].
    apply Forall_forall. intros op Hop.
    apply in_flat_map in Hop. destruct Hop as (x & Hx & Hop).
    apply in_seq in Hx.
    destruct (column_nominal float32 width x HF) as [Nmn Nmx].
    destruct (column float32 width x) as [mn mx]. simpl in Nmn, Nmx.
    destruct (column_centre width x ltac:(lia)) as [C0 C1].
    destruct Hop as [<- | [<- | []]]; simpl;
      [destruct (band_of_nominal mn height Hh Nmn)
      |destruct (band_of_nominal mx height Hh Nmx)]; tauto.
Qed.

Lemma drawFromPCM_stays_in_band_witness :
  List.length (drawFromPCM Samples.heard 3 100) = (2 * 3 + 3)%nat
  /\ Forall (in_band 3 100) (drawFromPCM Samples.heard 3 100).
Proof.
  apply (drawFromPCM_stays_in_band Samples.heard 3 100).
  - lra.
  - unfold Samples.heard, nominal. repeat constructor; lra.
Defined.

(** X15.  With at least as many samples as columns, the columns together
    scan the first [width * step] samples, each exactly once: sample [k] is
    the one at place [k mod step] of column [k / step].  What is left out is
    the end of the buffer, fewer than [width] samples. *)
Theorem columns_reach (float32 : list Q) (width : nat) :
  (0 < width)%nat ->
  (width <= List.length float32)%nat ->
  (width * step_of (List.length float32) width <= List.length float32)%nat
  /\ (List.length float32 < width * step_of (List.length float32) width + width)%nat
  /\ forall k, (k < width * step_of (List.length float32) width)%nat ->
       (k / step_of (List.length float32) width < width)%nat
       /\ nth (k mod step_of (List.length float32) width)
              (window float32 width (k / step_of (List.length float32) width)) 0
          = nth k float32 0.
Proof.
  intros Hw Hl.
  pose proof (WaveformFacts.step_of_times _ _ Hl) as Hs.
  assert (Hstep : step_of (List.length float32) width = (List.length float32 / width)%nat).
  { unfold step_of. apply Nat.max_r.
    apply Nat.div_le_lower_bound; lia. }
  assert (Hpos : (0 < step_of (List.length float32) width)%nat).
  { unfold step_of. lia. }
  split; [exact Hs|]. split.
  - rewrite Hstep.
    pose proof (Nat.div_mod_eq (List.length float32) width) as E.
    pose proof (Nat.mod_upper_bound (List.length float32) width ltac:(lia)). lia.
  - intros k Hk.
    set (step := step_of (List.length float32) width) in *.
    assert (Hx : (k / step < width)%nat).
    { apply Nat.Div0.div_lt_upper_bound. lia. }
    split; [exact Hx|].
    pose proof (WaveformFacts.window_full float32 width (k / step) Hx Hl) as Hfull.
    fold step in Hfull.
    rewrite WaveformFacts.window_nth
      by (rewrite Hfull; apply Nat.mod_upper_bound; lia).
    fold step. f_equal.
    pose proof (Nat.div_mod_eq k step). lia.
Qed.

Lemma columns_reach_witness :
  (4 * step_of (List.length Spec.ten_samples) 4 <= List.length Spec.ten_samples)%nat
  /\ (List.length Spec.ten_samples < 4 * step_of (List.length Spec.ten_samples) 4 + 4)%nat
  /\ forall k, (k < 4 * step_of (List.length Spec.ten_samples) 4)%nat ->
       (k / step_of (List.length Spec.ten_samples) 4 < 4)%nat
       /\ nth (k mod step_of (List.length Spec.ten_samples) 4)
              (window Spec.ten_samples 4 (k / step_of (List.length Spec.ten_samples) 4)) 0
          = nth k Spec.ten_samples 0.
Proof.
  apply (columns_reach Spec.ten_samples 4).
  - lia.
  - simpl. lia.
Defined.

End CanvasFacts.

(** ** [bufferToWav]: layout and round trips *)
Module WavFacts.
Import Js JsFacts Wav.

Lemma flat_map_length_const {A B} (f : A -> list B) (k : nat) (l : list A) :
  (forall x, List.length (f x) = k) ->
  List.length (flat_map f l) = (k * List.length l)%nat.
Proof.
  intro H. induction l as [|a l IH]; simpl; [lia|].
  rewrite length_app, H, IH. lia.
Qed.

Lemma interleaved_length (b : AudioBuffer) :
  List.length (interleaved b) = (numberOfChannels b * frames b)%nat.
Proof.
  unfold interleaved. rewrite (flat_map_length_const _ (numberOfChannels b)).
  - rewrite length_seq. reflexivity.
  - intro i. rewrite length_map, length_seq. reflexivity.
Qed.

Lemma header_length (b : AudioBuffer) : List.length (header b) = 44%nat.
Proof. reflexivity. Qed.

(** X16.  The bytes [bufferToWav] writes fill the buffer it allocates
    exactly: 44 header bytes and two bytes per sample of every channel, which
    is the [length] it computed; no byte is left unwritten and no write falls
    outside. *)
Theorem bufferToWav_length (b : AudioBuffer) :
  Z.of_nat (List.length (bufferToWav b)) = wav_length b
  /\ List.length (bufferToWav b)
     = (44 + 2 * (frames b * numberOfChannels b))%nat.
Proof.
  assert (L : List.length (bufferToWav b)
              = (44 + 2 * (frames b * numberOfChannels b))%nat).
  { unfold bufferToWav. rewrite length_app, header_length.
    rewrite (flat_map_length_const _ 2) by reflexivity.
    rewrite interleaved_length. lia. }
  split; [|exact L]. rewrite L. unfold wav_length. lia.
Qed.

Lemma u32_setUint32 (v : Z) :
  (0 <= v < 4294967296)%Z ->
  match setUint32 v with
  | [b0; b1; b2; b3] => u32 b0 b1 b2 b3 = v
  | _ => False
  end.
Proof.
  intro H. unfold setUint32, u32. cbv zeta.
  rewrite (Z.mod_small v) by lia.
  Z.div_mod_to_equations. lia.
Qed.

Lemma u16_setUint16 (v : Z) :
  (0 <= v < 65536)%Z ->
  match setUint16 v with
  | [b0; b1] => u16 b0 b1 = v
  | _ => False
  end.
Proof.
  intro H. unfold setUint16, u16. cbv zeta.
  rewrite (Z.mod_small v) by lia.
  Z.div_mod_to_equations. lia.
Qed.

(** Any 44 bytes with the four tags in place parse to the fields between
    them. *)
Lemma parse_layout (s0 s1 s2 s3 n0 n1 n2 n3 a0 a1 c0 c1 h0 h1 h2 h3
                    y0 y1 y2 y3 k0 k1 p0 p1 z0 z1 z2 z3 : Z) (rest : list Z) :
  parse_header
    (writeUTFBytes "RIFF" ++ [s0; s1; s2; s3]
     ++ writeUTFBytes "WAVE" ++ writeUTFBytes "fmt "
     ++ [n0; n1; n2; n3] ++ [a0; a1] ++ [c0; c1] ++ [h0; h1; h2; h3]
     ++ [y0; y1; y2; y3] ++ [k0; k1] ++ [p0; p1]
     ++ writeUTFBytes "data" ++ [z0; z1; z2; z3] ++ rest)
  = Some {| riffSize := u32 s0 s1 s2 s3;
            fmtSize := u32 n0 n1 n2 n3;
            audioFormat := u16 a0 a1;
            channels := u16 c0 c1;
            rate := u32 h0 h1 h2 h3;
            byteRate := u32 y0 y1 y2 y3;
            blockAlign := u16 k0 k1;
            bitsPerSample := u16 p0 p1;
            dataSize := u32 z0 z1 z2 z3 |}.
Proof. reflexivity. Qed.

(** X17.  When the sizes fit their fields, the 44 bytes at the front of
    the result read back as a PCM header that describes the buffer: format 1
    (PCM) in a 16-byte format chunk, the buffer's channel count and sample
    rate, 16 bits per sample, block size [2 * channels], byte rate
    [rate * 2 * channels], a data size of two bytes per sample of every
    channel, and a RIFF size of the data size plus 36. *)
Theorem bufferToWav_header_reads_back (b : AudioBuffer) :
  fits b ->
  parse_header (bufferToWav b)
  = Some {| riffSize := 36 + 2 * Z.of_nat (frames b) * Z.of_nat (numberOfChannels b);
            fmtSize := 16;
            audioFormat := 1;
            channels := Z.of_nat (numberOfChannels b);
            rate := sampleRate b;
            byteRate := sampleRate b * 2 * Z.of_nat (numberOfChannels b);
            blockAlign := 2 * Z.of_nat (numberOfChannels b);
            bitsPerSample := 16;
            dataSize := 2 * Z.of_nat (frames b) * Z.of_nat (numberOfChannels b) |}%Z.
Proof.
  intros ([H0 H0'] & H1 & H2 & H3). unfold wav_length in H3.
  assert (P : (0 <= Z.of_nat (frames b) * Z.of_nat (numberOfChannels b))%Z) by lia.
  pose proof (u32_setUint32 (wav_length b - 8)) as R.
  pose proof (u32_setUint32 16) as F.
  pose proof (u16_setUint16 1) as A.
  pose proof (u16_setUint16 (Z.of_nat (numberOfChannels b))) as C.
  pose proof (u32_setUint32 (sampleRate b)) as S.
  pose proof (u32_setUint32 (sampleRate b * 2 * Z.of_nat (numberOfChannels b))) as Y.
  pose proof (u16_setUint16 (Z.of_nat (numberOfChannels b) * 2)) as K.
  pose proof (u16_setUint16 16) as B.
  pose proof (u32_setUint32 (wav_length b - 40 - 4)) as D.
  unfold bufferToWav, header. cbv zeta.
  unfold wav_length in *.
  destruct (setUint32 (Z.of_nat (frames b) * Z.of_nat (numberOfChannels b) * 2 + 44 - 8))
    as [|s0 [|s1 [|s2 [|s3 [|]]]]]; try (exfalso; exact (R ltac:(lia))).
  destruct (setUint32 16) as [|n0 [|n1 [|n2 [|n3 [|]]]]];
    try (exfalso; exact (F ltac:(lia))).
  destruct (setUint16 1) as [|a0 [|a1 [|]]]; try (exfalso; exact (A ltac:(lia))).
  destruct (setUint16 (Z.of_nat (numberOfChannels b))) as [|c0 [|c1 [|]]];
    try (exfalso; exact (C ltac:(lia))).
  destruct (setUint32 (sampleRate b)) as [|h0 [|h1 [|h2 [|h3 [|]]]]];
    try (exfalso; exact (S ltac:(lia))).
  destruct (setUint32 (sampleRate b * 2 * Z.of_nat (numberOfChannels b)))
    as [|y0 [|y1 [|y2 [|y3 [|]]]]]; try (exfalso; exact (Y ltac:(lia))).
  destruct (setUint16 (Z.of_nat (numberOfChannels b) * 2)) as [|k0 [|k1 [|]]];
    try (exfalso; exact (K ltac:(lia))).
  destruct (setUint16 16) as [|p0 [|p1 [|]]]; try (exfalso; exact (B ltac:(lia))).
  destruct (setUint32 (Z.of_nat (frames b) * Z.of_nat (numberOfChannels b) * 2 + 44 - 40 - 4))
    as [|z0 [|z1 [|z2 [|z3 [|]]]]]; try (exfalso; exact (D ltac:(lia))).
  rewrite <- !app_assoc. rewrite parse_layout.
  rewrite (R ltac:(lia)), (F ltac:(lia)), (A ltac:(lia)), (C ltac:(lia)),
    (S ltac:(lia)), (Y ltac:(lia)), (K ltac:(lia)), (B ltac:(lia)), (D ltac:(lia)).
  f_equal. f_equal; lia.
Qed.

Lemma bufferToWav_header_reads_back_witness :
  parse_header (bufferToWav chirp)
  = Some {| riffSize := 36 + 2 * Z.of_nat (frames chirp) * Z.of_nat (numberOfChannels chirp);
            fmtSize := 16;
            audioFormat := 1;
            channels := Z.of_nat (numberOfChannels chirp);
            rate := sampleRate chirp;
            byteRate := sampleRate chirp * 2 * Z.of_nat (numberOfChannels chirp);
            blockAlign := 2 * Z.of_nat (numberOfChannels chirp);
            bitsPerSample := 16;
            dataSize := 2 * Z.of_nat (frames chirp) * Z.of_nat (numberOfChannels chirp) |}%Z.
Proof.
  apply (bufferToWav_header_reads_back chirp).
  unfold fits. vm_compute. repeat split; try discriminate; reflexivity.
Defined.

Lemma Math_min_le (a x : Q) : Math_min a x <= a /\ Math_min a x <= x.
Proof.
  unfold Math_min. destruct (lt x a) eqn:E;
    [apply lt_true in E | apply lt_false in E]; split; lra.
Qed.

Lemma clamp_cases (x : Q) :
  (x <= -1 /\ clamp x == -1) \/ (-1 <= x <= 1 /\ clamp x == x)
  \/ (1 <= x /\ clamp x == 1).
Proof.
  unfold clamp, Math_max, Math_min.
  destruct (lt x 1) eqn:E1; [apply lt_true in E1 | apply lt_false in E1].
  - destruct (lt (-1) x) eqn:E2; [apply lt_true in E2 | apply lt_false in E2].
    + right. left. split; [split; lra | reflexivity].
    + left. split; [exact E2 | reflexivity].
  - destruct (lt (-1) 1) eqn:E2; [|discriminate E2].
    right. right. split; [exact E1 | reflexivity].
Qed.

Lemma clamp_range (x : Q) : -1 <= clamp x /\ clamp x <= 1.
Proof.
  destruct (clamp_cases x) as [[H E] | [[H E] | [H E]]]; rewrite E; lra.
Qed.

Lemma floor_between (y : Q) (lo hi : Z) :
  inject_Z lo <= y -> y <= inject_Z hi -> (lo <= Qfloor y <= hi)%Z.
Proof.
  intros L U. split.
  - rewrite <- (Qfloor_Z lo). apply Qfloor_resp_le, L.
  - rewrite <- (Qfloor_Z hi). apply Qfloor_resp_le, U.
Qed.

(** The scaled sample is cut to an integer between -32768 and 32767. *)
Lemma pcm16_range (x : Q) : (-32768 <= pcm16 x <= 32767)%Z.
Proof.
  unfold pcm16, scale, truncate.
  destruct (clamp_range x) as [L U]. set (s := clamp x) in *.
  destruct (lt s 0) eqn:S; [apply lt_true in S | apply lt_false in S].
  - destruct (lt (s * 32768) 0) eqn:T; [|apply lt_false in T; lra].
    pose proof (floor_between (- (s * 32768)) 0 32768) as F.
    change (inject_Z 0) with 0 in F. change (inject_Z 32768) with 32768 in F.
    specialize (F ltac:(lra) ltac:(lra)). lia.
  - destruct (lt (s * 32767) 0) eqn:T; [apply lt_true in T; lra|].
    pose proof (floor_between (s * 32767) 0 32767) as F.
    change (inject_Z 0) with 0 in F. change (inject_Z 32767) with 32767 in F.
    specialize (F ltac:(lra) ltac:(lra)). lia.
Qed.

Lemma i16_setUint16 (t : Z) :
  (-32768 <= t <= 32767)%Z ->
  match setUint16 t with
  | [lo; hi] => i16 lo hi = t
  | _ => False
  end.
Proof.
  intro H. unfold setUint16, i16, u16. cbv zeta.
  set (u := (t mod 65536)%Z).
  assert (Hu : (0 <= u < 65536)%Z) by (apply Z.mod_pos_bound; lia).
  assert (Eu : (u mod 256 + 256 * (u / 256 mod 256) = u)%Z)
    by (Z.div_mod_to_equations; lia).
  rewrite Eu.
  assert (Et : (u = t \/ u = t + 65536)%Z).
  { unfold u. Z.div_mod_to_equations. lia. }
  destruct (u <? 32768)%Z eqn:C;
    [apply Z.ltb_lt in C | apply Z.ltb_ge in C]; lia.
Qed.

Lemma decode_encoded (l : list Q) :
  decode_samples (flat_map (fun x => setInt16 (scale (clamp x))) l)
  = map pcm16 l.
Proof.
  induction l as [|x l IH]; [reflexivity|].
  cbn [flat_map map]. unfold setInt16 at 1.
  pose proof (i16_setUint16 _ (pcm16_range x)) as H. unfold pcm16 in H at 1.
  destruct (setUint16 (truncate (scale (clamp x)))) as [|lo [|hi [|]]];
    try contradiction.
  cbn [app decode_samples]. rewrite H, IH. reflexivity.
Qed.

(** X18.  The data section round-trips: read as little-endian signed
    16-bit numbers, the bytes after the header are, in order, the interleaved
    samples clamped to [-1, 1], scaled (by 32768 below zero, by 32767
    otherwise) and cut to an integer.  Every value is between -32768 and
    32767, so the two's-complement conversion of [setInt16] never wraps. *)
Theorem bufferToWav_samples_read_back (b : AudioBuffer) :
  decode_samples (skipn 44 (bufferToWav b)) = map pcm16 (interleaved b)
  /\ Forall (fun v => (-32768 <= v <= 32767)%Z)
            (decode_samples (skipn 44 (bufferToWav b))).
Proof.
  assert (E : decode_samples (skipn 44 (bufferToWav b)) = map pcm16 (interleaved b)).
  { unfold bufferToWav. rewrite skipn_app, header_length.
    rewrite skipn_all2 by (rewrite header_length; lia).
    simpl. apply decode_encoded. }
  split; [exact E|]. rewrite E. apply Forall_forall.
  intros v Hv. apply in_map_iff in Hv. destruct Hv as (x & <- & _).
  apply pcm16_range.
Qed.

Lemma nth_chunks {A} (F : nat -> list A) (n : nat) (d : A) :
  (forall i, List.length (F i) = n) ->
  forall f s i c, (i < f)%nat -> (c < n)%nat ->
  nth (i * n + c) (flat_map F (seq s f)) d = nth c (F (s + i)%nat) d.
Proof.
  intro HF. induction f as [|f IH]; intros s i c Hi Hc; [lia|].
  simpl seq. simpl flat_map. destruct i as [|i].
  - rewrite app_nth1 by (rewrite HF; simpl; lia).
    rewrite Nat.add_0_r. reflexivity.
  - rewrite app_nth2 by (rewrite HF; simpl; lia).
    rewrite HF. replace (S i * n + c - n)%nat with (i * n + c)%nat by (simpl; lia).
    rewrite IH by lia. f_equal. f_equal. lia.
Qed.

Lemma nth_map_within {A B} (g : A -> B) (d : B) (d' : A) (l : list A) :
  forall k, (k < List.length l)%nat -> nth k (map g l) d = g (nth k l d').
Proof.
  induction l as [|a l IH]; intros k Hk; simpl in Hk; [lia|].
  destruct k as [|k]; [reflexivity|]. simpl. apply IH. lia.
Qed.

(** X19.  Samples are interleaved frame by frame: the sample of frame [i]
    of channel [ch] is at place [i * channels + ch], so its two bytes are at
    offset [44 + 2 * (i * channels + ch)], and it is stored as its 16-bit
    value. *)
Theorem bufferToWav_interleaves (b : AudioBuffer) (i ch : nat) :
  (i < frames b)%nat -> (ch < numberOfChannels b)%nat ->
  nth (i * numberOfChannels b + ch) (interleaved b) 0
    = nth i (nth ch (channelData b) []) 0
  /\ nth (i * numberOfChannels b + ch)
         (decode_samples (skipn 44 (bufferToWav b))) 0%Z
     = pcm16 (nth i (nth ch (channelData b) []) 0).
Proof.
  intros Hi Hc.
  assert (E : nth (i * numberOfChannels b + ch) (interleaved b) 0
              = nth i (nth ch (channelData b) []) 0).
  { unfold interleaved.
    rewrite (nth_chunks _ (numberOfChannels b))
      by (try (intro; rewrite length_map, length_seq; reflexivity); assumption).
    simpl Nat.add.
    rewrite (nth_map_within _ 0 0%nat) by (rewrite length_seq; exact Hc).
    rewrite seq_nth by exact Hc. reflexivity. }
  split; [exact E|].
  destruct (bufferToWav_samples_read_back b) as [R _]. rewrite R.
  rewrite (nth_map_within _ 0%Z 0) by (rewrite interleaved_length; nia).
  rewrite E. reflexivity.
Qed.

Lemma bufferToWav_interleaves_witness :
  nth (3 * numberOfChannels chirp + 0) (interleaved chirp) 0
    = nth 3 (nth 0 (channelData chirp) []) 0
  /\ nth (3 * numberOfChannels chirp + 0)
         (decode_samples (skipn 44 (bufferToWav chirp))) 0%Z
     = pcm16 (nth 3 (nth 0 (channelData chirp) []) 0).
Proof.
  apply (bufferToWav_interleaves chirp 3 0); unfold numberOfChannels; simpl; lia.
Defined.

Lemma truncate_mono (x y : Q) : x <= y -> (truncate x <= truncate y)%Z.
Proof.
  intro H. unfold truncate.
  destruct (lt x 0) eqn:Sx; destruct (lt y 0) eqn:Sy;
    try apply lt_true in Sx; try apply lt_false in Sx;
    try apply lt_true in Sy; try apply lt_false in Sy.
  - pose proof (Qfloor_resp_le (- y) (- x) ltac:(lra)). lia.
  - pose proof (floor_between y 0 (Qfloor y) Sy) as F.
    pose proof (Qfloor_resp_le 0 (- x) ltac:(lra)) as G.
    pose proof (Qfloor_resp_le 0 y Sy) as G'.
    change (Qfloor 0) with 0%Z in G, G'. lia.
  - lra.
  - apply Qfloor_resp_le, H.
Qed.

(** X20.  The 16-bit value of a sample: amplitudes at or above 1 give
    32767 and those at or below -1 give -32768 (clipping, no wrap-around);
    silence gives 0; a larger amplitude never gives a smaller value; and
    within the range the value is the scaled amplitude cut towards zero, so
    less than one step away from it. *)
Theorem pcm16_quantizes (x y : Q) :
  (1 <= x -> pcm16 x = 32767%Z)
  /\ (x <= -1 -> pcm16 x = (-32768)%Z)
  /\ pcm16 0 = 0%Z
  /\ (x <= y -> (pcm16 x <= pcm16 y)%Z)
  /\ (0 <= x <= 1 ->
      inject_Z (pcm16 x) <= x * 32767 /\ x * 32767 < inject_Z (pcm16 x) + 1)
  /\ (-1 <= x < 0 ->
      inject_Z (pcm16 x) - 1 < x * 32768 /\ x * 32768 <= inject_Z (pcm16 x)).
Proof.
  assert (Scale_mono : forall a b, a <= b -> scale a <= scale b).
  { intros a b H. unfold scale.
    destruct (lt a 0) eqn:Sa; destruct (lt b 0) eqn:Sb;
      try apply lt_true in Sa; try apply lt_false in Sa;
      try apply lt_true in Sb; try apply lt_false in Sb; lra. }
  assert (Clamp_mono : forall a b, a <= b -> clamp a <= clamp b).
  { intros a b H.
    destruct (clamp_cases a) as [[Ha Ea] | [[Ha Ea] | [Ha Ea]]];
    destruct (clamp_cases b) as [[Hb Eb] | [[Hb Eb] | [Hb Eb]]];
      rewrite Ea, Eb; lra. }
  assert (At : forall s, pcm16 x = truncate (scale s) -> True) by auto.
  assert (Val : forall s, clamp x == s -> pcm16 x = truncate (scale s)).
  { intros s E. unfold pcm16, truncate, scale.
    assert (L : lt (clamp x) 0 = lt s 0).
    { unfold lt. f_equal. destruct (Qle_bool 0 (clamp x)) eqn:A;
        destruct (Qle_bool 0 s) eqn:B; try reflexivity.
      - apply Qle_bool_iff in A. rewrite E in A. apply Qle_bool_iff in A. congruence.
      - apply Qle_bool_iff in B. rewrite <- E in B. apply Qle_bool_iff in B. congruence. }
    rewrite L. destruct (lt s 0).
    + assert (E2 : clamp x * 32768 == s * 32768) by (rewrite E; reflexivity).
      assert (L2 : lt (clamp x * 32768) 0 = lt (s * 32768) 0).
      { unfold lt. f_equal. destruct (Qle_bool 0 (clamp x * 32768)) eqn:A;
          destruct (Qle_bool 0 (s * 32768)) eqn:B; try reflexivity.
        - apply Qle_bool_iff in A. rewrite E2 in A. apply Qle_bool_iff in A. congruence.
        - apply Qle_bool_iff in B. rewrite <- E2 in B. apply Qle_bool_iff in B. congruence. }
      rewrite L2. destruct (lt (s * 32768) 0).
      * f_equal. apply Qfloor_comp. rewrite E2. reflexivity.
      * apply Qfloor_comp. exact E2.
    + assert (E2 : clamp x * 32767 == s * 32767) by (rewrite E; reflexivity).
      assert (L2 : lt (clamp x * 32767) 0 = lt (s * 32767) 0).
      { unfold lt. f_equal. destruct (Qle_bool 0 (clamp x * 32767)) eqn:A;
          destruct (Qle_bool 0 (s * 32767)) eqn:B; try reflexivity.
        - apply Qle_bool_iff in A. rewrite E2 in A. apply Qle_bool_iff in A. congruence.
        - apply Qle_bool_iff in B. rewrite <- E2 in B. apply Qle_bool_iff in B. congruence. }
      rewrite L2. destruct (lt (s * 32767) 0).
      * f_equal. apply Qfloor_comp. rewrite E2. reflexivity.
      * apply Qfloor_comp. exact E2. }
  clear At.
  split; [|split; [|split; [|split; [|split]]]].
  - intro H. destruct (clamp_cases x) as [[Hx E] | [[Hx E] | [Hx E]]]; try lra.
    + assert (E' : clamp x == 1) by (rewrite E; lra). rewrite (Val 1 E'). reflexivity.
    + rewrite (Val 1 E). reflexivity.
  - intro H. destruct (clamp_cases x) as [[Hx E] | [[Hx E] | [Hx E]]]; try lra.
    + rewrite (Val (-1) E). reflexivity.
    + assert (E' : clamp x == -1) by (rewrite E; lra). rewrite (Val (-1) E'). reflexivity.
  - reflexivity.
  - intro H. unfold pcm16. apply truncate_mono, Scale_mono, Clamp_mono, H.
  - intros [L U].
    assert (E : clamp x == x).
    { destruct (clamp_cases x) as [[Hx E] | [[Hx E] | [Hx E]]]; rewrite E; lra. }
    rewrite (Val x E). unfold scale, truncate.
    destruct (lt x 0) eqn:S; [apply lt_true in S; lra|].
    destruct (lt (x * 32767) 0) eqn:T; [apply lt_true in T; lra|].
    pose proof (Qfloor_le (x * 32767)). pose proof (Qlt_floor (x * 32767)) as F.
    rewrite inject_Z_plus in F. change (inject_Z 1) with 1 in F. split; lra.
  - intros [L U].
    assert (E : clamp x == x).
    { destruct (clamp_cases x) as [[Hx E] | [[Hx E] | [Hx E]]]; rewrite E; lra. }
    rewrite (Val x E). unfold scale, truncate.
    destruct (lt x 0) eqn:S; [|apply lt_false in S; lra].
    destruct (lt (x * 32768) 0) eqn:T; [|apply lt_false in T; lra].
    pose proof (Qfloor_le (- (x * 32768))). pose proof (Qlt_floor (- (x * 32768))) as F.
    rewrite inject_Z_plus in F. change (inject_Z 1) with 1 in F.
    rewrite inject_Z_opp. split; lra.
Qed.

End WavFacts.

(** ** The pause accumulation of the test file *)
Module PauseTestFacts.
Import Js JsFacts PauseTest.





End PauseTestFacts.

(** ** From the ledger to the engine *)
Module FreezeFacts.
Import Js JsFacts Exporter.

Lemma quantize_floor (d : Q) : 0.01 <= d -> 0.01 <= quantize d.
Proof.
  intro H. unfold quantize.
  destruct (lt d 0) eqn:S; [apply lt_true in S; lra|].
  assert (N : (10 <= nearest_milli d)%Z).
  { unfold nearest_milli. change 10%Z with (Qfloor 10).
    apply Qfloor_resp_le. lra. }
  unfold Qle; simpl. lia.
Qed.

(** X22.  Whatever a session went through, every freeze of the plan made
    from its ledger is asked of the engine with a [-t] of at least 0.010:
    the floor applied by [togglePause] survives the rounding of [fmtTime],
    so no freeze clip of zero length is requested. *)
Theorem session_freezes_at_least_floor (events : list Main.Event) :
  Forall (fun fd => 0.01 <= quantize (snd fd))
         (freezes (plan (Main.pauses (Main.session events Main.fresh))))
  /\ List.length (freezes (plan (Main.pauses (Main.session events Main.fresh))))
     = List.length (Main.pauses (Main.session events Main.fresh)).
Proof.
  unfold plan. rewrite ExporterFacts.freezes_sweep. split; [|apply length_map].
  apply Forall_forall. intros fd Hin.
  apply in_map_iff in Hin. destruct Hin as (p & <- & Hp). simpl.
  apply quantize_floor.
  pose proof (SessionFacts.session_floored events Main.fresh (Forall_nil _)) as F.
  rewrite Forall_forall in F. exact (F p Hp).
Qed.

End FreezeFacts.

(** ** The shape of an export's engine calls *)
Module TraceFacts.
Import Js JsFacts Exporter Trace.

Local Open Scope string_scope.


Section Shape.

Variable Number_toString : Q -> string.



End Shape.

End TraceFacts.
